(** * OSC light controller: latency-compensated event scheduler

    A shallow embedding of [OSCLightController] (testbulb.py) and the
    properties of its bounded queue, dispatcher loop, statistics and
    calibration.

    Conventions of the embedding.
    - Python floats (seconds, milliseconds) are exact rationals [Q];
      rounding of binary64 arithmetic is not modelled.  Equalities between
      computed durations are therefore stated with [==] (Qeq).
    - Python ints are [Z].
    - [time.perf_counter()] reads a global monotone [clock].
    - [print] appends a structured [Line] to the console.
    - The dispatcher coroutine is cut at its suspension points ([await])
      and each operator command runs in one piece, so messages and
      commands interleave with the dispatcher where the coroutine is
      suspended.
    - [System] runs each [osc_handler] call in one piece: handler calls
      do not overlap there.  [Threaded] refines it: the server starts a
      thread per datagram, and a handler thread is cut wherever it reads
      or writes shared state, so that calls overlap each other and the
      dispatcher. *)

From Stdlib Require Import ZArith QArith Qabs Lqa Lia Bool String Ascii.
From stdpp Require Import base list sorting.

Local Open Scope Z_scope.

(** ** Rational helpers mirroring Python's comparison operators *)

(** [a < b] on floats, as a boolean. *)
Definition Qltb (a b : Q) : bool := negb (Qle_bool b a).

(** Python's [max(a, b)]: the first argument unless the second is greater. *)
Definition py_max (a b : Q) : Q := if Qltb a b then b else a.

(** Python's [min(a, b)]: the first argument unless the second is smaller. *)
Definition py_min (a b : Q) : Q := if Qltb b a then b else a.

(** [int / int] and [int -> float] conversions. *)
Definition Zq (z : Z) : Q := inject_Z z.

(** ** OSC argument values

    The values python-osc hands to a handler that can serve as dictionary
    keys: strings, ints, floats, blobs, booleans and nil. *)
Inductive OscArg :=
| OStr (s : string)
| OInt (n : Z)
| OFloat (x : Q)
| OBlob (b : list ascii)
| OBool (b : bool)
| ONone.

(** Python truthiness: [not sound] is [negb (truthy sound)]. *)
Definition truthy (v : OscArg) : bool :=
  match v with
  | OStr s => negb (String.eqb s "")
  | OInt n => negb (n =? 0)
  | OFloat x => negb (Qeq_bool x 0)
  | OBlob b => match b with [] => false | _ => true end
  | OBool b => b
  | ONone => false
  end.

(** Numeric value of a key for Python's cross-type [==]
    ([1 == 1.0 == True]). *)
Definition num_of (v : OscArg) : option Q :=
  match v with
  | OInt n => Some (Zq n)
  | OFloat x => Some x
  | OBool b => Some (if b then 1%Q else 0%Q)
  | _ => None
  end.

Definition blob_eqb (a b : list ascii) : bool :=
  String.eqb (string_of_list_ascii a) (string_of_list_ascii b).

(** Key equality used by dict lookup and assignment. *)
Definition py_eq (a b : OscArg) : bool :=
  match num_of a, num_of b with
  | Some x, Some y => Qeq_bool x y
  | None, None =>
      match a, b with
      | OStr s, OStr t => String.eqb s t
      | OBlob s, OBlob t => blob_eqb s t
      | ONone, ONone => true
      | _, _ => false
      end
  | _, _ => false
  end.

(** A Python dict as an insertion-ordered association list. *)
Definition PyDict := list (OscArg * OscArg).

(** [d[k] = v]: overwrite the value of an equal key, else append. *)
Fixpoint dict_set (d : PyDict) (k v : OscArg) : PyDict :=
  match d with
  | [] => [(k, v)]
  | (k', v') :: rest =>
      if py_eq k' k then (k', v) :: rest else (k', v') :: dict_set rest k v
  end.

(** [d.get(k)]. *)
Fixpoint dict_get (d : PyDict) (k : OscArg) : option OscArg :=
  match d with
  | [] => None
  | (k', v') :: rest => if py_eq k' k then Some v' else dict_get rest k
  end.

(** Lines 85-88: [for i in range(0, len(args), 2): if i+1 < len(args):
    args_dict[args[i]] = args[i+1]]. *)
Fixpoint parse_args (d : PyDict) (args : list OscArg) : PyDict :=
  match args with
  | k :: v :: rest => parse_args (dict_set d k v) rest
  | _ => d
  end.

(** ** Events and the bounded queue *)

Record Event := mkEvent {
  sound : OscArg;
  receive_time : Q;
  event_id : Z
}.

(** [queue.Queue(maxsize)]: FIFO, oldest item at the head. *)
Record Queue := mkQueue {
  maxsize : Z;
  items : list Event
}.

Definition qsize (q : Queue) : Z := Z.of_nat (length (items q)).

(** [Queue.full]: a queue with [maxsize <= 0] is never full. *)
Definition full (q : Queue) : bool :=
  (0 <? maxsize q) && (maxsize q <=? qsize q).

(** [put(item, block=False)]; [None] is [queue.Full]. *)
Definition put_nowait (q : Queue) (e : Event) : option Queue :=
  if full q then None else Some (mkQueue (maxsize q) (items q ++ [e])).

(** [get_nowait()]; [None] is [queue.Empty]. *)
Definition get_nowait (q : Queue) : option (Event * Queue) :=
  match items q with
  | [] => None
  | e :: rest => Some (e, mkQueue (maxsize q) rest)
  end.

(** [deque(maxlen=n).append(x)]: drop from the left once over capacity. *)
Definition deque_append {A} (maxlen : nat) (d : list A) (x : A) : list A :=
  let d' := d ++ [x] in
  if (maxlen <? length d')%nat then tail d' else d'.

(** ** Controller state *)

Record Stats := mkStats {
  total : Z;
  measured_latencies : list Q;   (* deque(maxlen=1000) *)
  queue_sizes : list Z;          (* deque(maxlen=100), never written *)
  early_count : Z;
  late_count : Z
}.

Record Mapping := mkMapping {
  rgb : Z * Z * Z;
  brightness : Z;
  duration : option Q
}.

Record Controller := mkController {
  bulb_ip : string;
  pulse_duration : Q;
  max_queue_size : Z;
  target_latency : Q;
  bulb : bool;                    (* [self.bulb] is not None *)
  event_queue : Queue;
  scheduled_events : list (Q * Event);
  running : bool;
  system_overhead : Q;
  bulb_response_time : Q;
  osc_receive_delay : Q;
  intentional_delay : Q;
  stats : Stats
}.

(** Field updates ([self.x = v]). *)
Definition set_bulb (c : Controller) (v : bool) : Controller :=
  mkController (bulb_ip c) (pulse_duration c) (max_queue_size c)
    (target_latency c) v (event_queue c) (scheduled_events c) (running c)
    (system_overhead c) (bulb_response_time c) (osc_receive_delay c)
    (intentional_delay c) (stats c).

Definition set_event_queue (c : Controller) (v : Queue) : Controller :=
  mkController (bulb_ip c) (pulse_duration c) (max_queue_size c)
    (target_latency c) (bulb c) v (scheduled_events c) (running c)
    (system_overhead c) (bulb_response_time c) (osc_receive_delay c)
    (intentional_delay c) (stats c).

Definition set_running (c : Controller) (v : bool) : Controller :=
  mkController (bulb_ip c) (pulse_duration c) (max_queue_size c)
    (target_latency c) (bulb c) (event_queue c) (scheduled_events c) v
    (system_overhead c) (bulb_response_time c) (osc_receive_delay c)
    (intentional_delay c) (stats c).

Definition set_intentional_delay (c : Controller) (v : Q) : Controller :=
  mkController (bulb_ip c) (pulse_duration c) (max_queue_size c)
    (target_latency c) (bulb c) (event_queue c) (scheduled_events c)
    (running c) (system_overhead c) (bulb_response_time c)
    (osc_receive_delay c) v (stats c).

Definition set_stats (c : Controller) (v : Stats) : Controller :=
  mkController (bulb_ip c) (pulse_duration c) (max_queue_size c)
    (target_latency c) (bulb c) (event_queue c) (scheduled_events c)
    (running c) (system_overhead c) (bulb_response_time c)
    (osc_receive_delay c) (intentional_delay c) v.

Definition set_total (s : Stats) (v : Z) : Stats :=
  mkStats v (measured_latencies s) (queue_sizes s) (early_count s)
    (late_count s).

Definition set_measured_latencies (s : Stats) (v : list Q) : Stats :=
  mkStats (total s) v (queue_sizes s) (early_count s) (late_count s).

Definition set_early_count (s : Stats) (v : Z) : Stats :=
  mkStats (total s) (measured_latencies s) (queue_sizes s) v (late_count s).

Definition set_late_count (s : Stats) (v : Z) : Stats :=
  mkStats (total s) (measured_latencies s) (queue_sizes s) (early_count s) v.

(** Constants of the source. *)
Definition minimum_delay : Q := 1 # 1000.        (* 0.001 *)
Definition maximum_delay : Q := 1.               (* 1.0 *)
Definition min_calibration_samples : nat := 10.
Definition latency_window : nat := 1000.
Definition poll_timeout : Q := 1 # 1000.         (* get(timeout=0.001) *)
Definition empty_backoff : Q := 5 # 1000.        (* sleep(0.005) *)
Definition early_late_threshold : Q := 5 # 1000. (* 0.005 *)
Definition significant_error : Q := 20 # 1000.   (* 0.020 *)

(** [__init__] (lines 12-64). *)
Definition init (ip : string) (pulse : Q) (max_q : Z) (target : Q)
  : Controller :=
  let overhead := (50 # 1000)%Q in
  let response := (100 # 1000)%Q in
  mkController ip pulse max_q target false (mkQueue max_q []) [] true
    overhead response (10 # 1000)%Q
    (py_max minimum_delay (target - overhead - response)%Q)
    (mkStats 0 [] [] 0 0).

(** [self.sound_map] and [sound_map.get(name, sound_map['default'])]. *)
Definition default_mapping : Mapping :=
  mkMapping (255, 255, 255) 50 (Some (5 # 100)%Q).

Definition sound_map_get (name : OscArg) : Mapping :=
  match name with
  | OStr "bd" => mkMapping (255, 0, 0) 100 (Some (8 # 100)%Q)
  | OStr "cp" => mkMapping (0, 255, 0) 80 (Some (6 # 100)%Q)
  | OStr "hh" => mkMapping (0, 0, 255) 60 (Some (4 # 100)%Q)
  | OStr "sn" => mkMapping (255, 255, 0) 90 (Some (7 # 100)%Q)
  | OStr "default" => default_mapping
  | _ => default_mapping
  end.

(** [mapping.get('duration', self.pulse_duration)]. *)
Definition mapping_duration (c : Controller) (m : Mapping) : Q :=
  match duration m with Some d => d | None => pulse_duration c end.

(** ** Console output *)

Inductive Line :=
| LConnected (ip : string)
| LConnectFailed
| LProcessorStarted (target_ms : Q)
| LLatencyError (late : bool) (error_ms actual_ms : Q)
| LLightError
| LStats (avg_ms std_ms_squared target_ms error_ms early_pct late_pct : Q)
         (queue : Z)
| LDelay (old_ms new_ms adjustment_ms : Q)
| LNeedMoreData
| LAutoCalibration (measured_ms target_ms error_ms adjustment_ms : Q)
| LCurrent (delay_ms target_ms : Q)
| LBulbOff.

(** ** Statistics *)

Definition Qsum (l : list Q) : Q := foldr Qplus 0%Q l.

(** [statistics.mean]; every call site guards against the empty window. *)
Definition mean (l : list Q) : Q :=
  (Qsum l / Zq (Z.of_nat (length l)))%Q.

(** [statistics.variance] (sample variance); [statistics.stdev] is its
    square root, which the console line carries squared. *)
Definition variance (l : list Q) : Q :=
  let m := mean l in
  (Qsum (map (fun x => (x - m) * (x - m)) l)
   / Zq (Z.of_nat (length l) - 1))%Q.

(** [print_stats] (lines 192-214). *)
Definition print_stats (c : Controller) : list Line :=
  match measured_latencies (stats c) with
  | [] => []
  | latencies =>
      let avg_ms := (mean latencies * 1000)%Q in
      let std_ms_squared :=
        if (1 <? length latencies)%nat
        then (variance latencies * 1000 * 1000)%Q else 0%Q in
      let total := Z.max 1 (total (stats c)) in
      let early_pct := (Zq (early_count (stats c)) / Zq total * 100)%Q in
      let late_pct := (Zq (late_count (stats c)) / Zq total * 100)%Q in
      [LStats avg_ms std_ms_squared (target_latency c * 1000)%Q
         (avg_ms - target_latency c * 1000)%Q early_pct late_pct
         (qsize (event_queue c))]
  end.

(** ** Calibration *)

(** [update_delay] (lines 216-230). *)
Definition update_delay (c : Controller) (adjustment_ms : Q)
  : Controller * list Line :=
  let old_delay := intentional_delay c in
  let adjustment := (adjustment_ms / 1000)%Q in
  let raised := (intentional_delay c + adjustment)%Q in
  let clamped := py_max minimum_delay (py_min maximum_delay raised) in
  (set_intentional_delay c clamped,
   [LDelay (old_delay * 1000)%Q (clamped * 1000)%Q adjustment_ms]).

(** [calibrate_automatically] (lines 232-259). *)
Definition calibrate_automatically (c : Controller)
  : Controller * list Line :=
  if (length (measured_latencies (stats c)) <? min_calibration_samples)%nat
  then (c, [LNeedMoreData])
  else
    let avg_measured := mean (measured_latencies (stats c)) in
    let error := (avg_measured - target_latency c)%Q in
    let adjustment_ms := (- error * 1000)%Q in
    let report :=
      LAutoCalibration (avg_measured * 1000)%Q (target_latency c * 1000)%Q
        (error * 1000)%Q adjustment_ms in
    let (c1, out) := update_delay c adjustment_ms in
    let st := stats c1 in
    let st := set_measured_latencies st [] in
    let st := set_early_count st 0 in
    let st := set_late_count st 0 in
    (set_stats c1 st, report :: out).

(** ** Ingest *)

(** Lines 103-112: non-blocking put; on [Full] drop the oldest and retry,
    swallowing whatever the retry raises.  The boolean tells whether the
    event ended up in the queue (the source does not report it). *)
Definition enqueue_event (q : Queue) (e : Event) : Queue * bool :=
  match put_nowait q e with
  | Some q' => (q', true)
  | None =>
      match get_nowait q with
      | Some (_, q1) =>
          match put_nowait q1 e with
          | Some q2 => (q2, true)
          | None => (q1, false)
          end
      | None => (q, false)
      end
  end.

(** [args_dict.get('s')] after the parsing loop. *)
Definition sound_of (args : list OscArg) : option OscArg :=
  dict_get (parse_args [] args) (OStr "s").

(** The event built at lines 95-99, when the message carries a sound. *)
Definition osc_event (c : Controller) (now : Q) (args : list OscArg)
  : option Event :=
  match sound_of args with
  | Some s => if truthy s
              then Some (mkEvent s now (total (stats c))) else None
  | None => None
  end.

(** [osc_handler] (lines 80-112); [now] is the [perf_counter()] reading of
    line 82. *)
Definition osc_handler (c : Controller) (now : Q) (address : string)
    (args : list OscArg) : Controller :=
  match osc_event c now args with
  | None => c
  | Some event =>
      let c1 := set_stats c (set_total (stats c) (total (stats c) + 1)) in
      set_event_queue c1 (fst (enqueue_event (event_queue c1) event))
  end.

(** ** The running system

    The controller together with the clock, the dispatcher coroutine's
    position, the console and the commands sent to the bulb.  [pushed] and
    [dispatched] are history variables: every event that entered the queue
    and every event the dispatcher took out of it, in order. *)

Inductive BulbCmd :=
| TurnOn (rgb : Z * Z * Z) (brightness : Z)
| TurnOff.

(** Where [process_events_with_delay] is suspended. *)
Inductive Phase :=
| Starting                                    (* before [setup_bulb] *)
| Idle                                        (* loop head, line 120 *)
| Polling (current_time : Q)                  (* in [get], line 125 *)
| Waiting (event : Event) (sleep_start wait_time : Q)   (* line 135 *)
| Actuating (event : Event) (actual_execute_time : Q)   (* line 139 *)
| Backoff (sleep_start : Q)                   (* line 163 *)
| Stopped.                                    (* loop left *)

Record System := mkSystem {
  ctl : Controller;
  clock : Q;
  phase : Phase;
  console : list Line;
  bulb_log : list BulbCmd;
  pushed : list Event;
  dispatched : list Event
}.

Definition set_ctl (s : System) (c : Controller) : System :=
  mkSystem c (clock s) (phase s) (console s) (bulb_log s) (pushed s)
    (dispatched s).

Definition set_phase (s : System) (p : Phase) : System :=
  mkSystem (ctl s) (clock s) p (console s) (bulb_log s) (pushed s)
    (dispatched s).

Definition print (s : System) (out : list Line) : System :=
  mkSystem (ctl s) (clock s) (phase s) (console s ++ out) (bulb_log s)
    (pushed s) (dispatched s).

Definition send (s : System) (cmd : BulbCmd) : System :=
  mkSystem (ctl s) (clock s) (phase s) (console s) (bulb_log s ++ [cmd])
    (pushed s) (dispatched s).

(** [setup_bulb] (lines 71-78); [ok] tells whether the bulb answered. *)
Definition setup_bulb (s : System) (ok : bool) : System :=
  let s := set_ctl s (set_bulb (ctl s) true) in
  if ok then print (send s TurnOff) [LConnected (bulb_ip (ctl s))]
  else print s [LConnectFailed].

(** Lines 141-160: the bookkeeping after [execute_light] has returned. *)
Definition record_latency (c : Controller) (event : Event)
    (actual_execute_time : Q) : Controller * list Line :=
  let actual_latency := (actual_execute_time - receive_time event)%Q in
  let st := stats c in
  let st := set_measured_latencies st
              (deque_append latency_window (measured_latencies st)
                 actual_latency) in
  let latency_error := (actual_latency - target_latency c)%Q in
  let st :=
    if Qltb latency_error (- early_late_threshold)
    then set_early_count st (early_count st + 1)
    else if Qltb early_late_threshold latency_error
         then set_late_count st (late_count st + 1)
         else st in
  let c := set_stats c st in
  let out1 :=
    if Qltb significant_error (Qabs latency_error)
    then [LLatencyError (Qltb 0 latency_error) (latency_error * 1000)%Q
            (actual_latency * 1000)%Q]
    else [] in
  let out2 :=
    if total (stats c) mod 50 =? 0 then print_stats c else [] in
  (c, out1 ++ out2).

Definition finish_event (s : System) (event : Event)
    (actual_execute_time : Q) : System :=
  let (c, out) := record_latency (ctl s) event actual_execute_time in
  set_phase (print (set_ctl s c) out) Idle.

(** Lines 137-139 up to the first suspension inside [execute_light]:
    the clock is read, then the bulb is switched on. *)
Definition begin_actuation (s : System) (event : Event) (ok : bool)
  : System :=
  let actual_execute_time := clock s in
  let s := if bulb (ctl s) then s else setup_bulb s ok in
  let mapping := sound_map_get (sound event) in
  if ok
  then set_phase (send s (TurnOn (rgb mapping) (brightness mapping)))
         (Actuating event actual_execute_time)
  else finish_event (print s [LLightError]) event actual_execute_time.

(** One resumption of the dispatcher coroutine.  A resumption whose
    sleep or timeout has not yet elapsed leaves the system as it is. *)
Definition dispatcher_step (s : System) (ok : bool) : System :=
  match phase s with
  | Starting =>
      let s := setup_bulb s ok in
      set_phase (print s [LProcessorStarted (target_latency (ctl s) * 1000)%Q])
        Idle
  | Idle =>
      if running (ctl s) then set_phase s (Polling (clock s))
      else set_phase s Stopped
  | Polling current_time =>
      match get_nowait (event_queue (ctl s)) with
      | Some (event, q) =>
          let s := mkSystem (set_event_queue (ctl s) q) (clock s) (phase s)
                     (console s) (bulb_log s) (pushed s)
                     (dispatched s ++ [event]) in
          let execute_time :=
            (receive_time event + intentional_delay (ctl s))%Q in
          let wait_time := (execute_time - current_time)%Q in
          if Qltb 0 wait_time
          then set_phase s (Waiting event (clock s) wait_time)
          else begin_actuation s event ok
      | None =>
          if Qle_bool (current_time + poll_timeout) (clock s)
          then set_phase s (Backoff (clock s))
          else s
      end
  | Waiting event sleep_start wait_time =>
      if Qle_bool (sleep_start + wait_time) (clock s)
      then begin_actuation s event ok
      else s
  | Actuating event actual_execute_time =>
      let hold :=
        mapping_duration (ctl s) (sound_map_get (sound event)) in
      if Qle_bool (actual_execute_time + hold) (clock s)
      then
        let s := if ok then send s TurnOff else print s [LLightError] in
        finish_event s event actual_execute_time
      else s
  | Backoff sleep_start =>
      if Qle_bool (sleep_start + empty_backoff) (clock s)
      then set_phase s Idle
      else s
  | Stopped => s
  end.

(** [shutdown] and [_async_shutdown] (lines 354-368). *)
Definition shutdown (s : System) : System :=
  let s := set_ctl s (set_running (ctl s) false) in
  let s := if bulb (ctl s) then send s TurnOff else s in
  print s [LBulbOff].

(** One iteration of [command_loop] (lines 323-349); [cmd] is the input
    line after [strip().lower()]. *)
Definition command (s : System) (cmd : string) : System :=
  if negb (running (ctl s)) then s
  else if String.eqb cmd "s" then print s (print_stats (ctl s))
  else if String.eqb cmd "+" then
    let (c, out) := update_delay (ctl s) 10 in print (set_ctl s c) out
  else if String.eqb cmd "-" then
    let (c, out) := update_delay (ctl s) (-10) in print (set_ctl s c) out
  else if String.eqb cmd "++" then
    let (c, out) := update_delay (ctl s) 50 in print (set_ctl s c) out
  else if String.eqb cmd "--" then
    let (c, out) := update_delay (ctl s) (-50) in print (set_ctl s c) out
  else if String.eqb cmd "c" then
    let (c, out) := calibrate_automatically (ctl s) in
    print (set_ctl s c) out
  else if String.eqb cmd "q" then shutdown s
  else print s [LCurrent (intentional_delay (ctl s) * 1000)%Q
                  (target_latency (ctl s) * 1000)%Q].

(** One message delivered by a handler call that nothing interrupts:
    all of [osc_handler] runs at the current clock reading.  Calls that
    overlap are the subject of [Threaded] below. *)
Definition deliver (s : System) (address : string) (args : list OscArg)
  : System :=
  let queued :=
    match osc_event (ctl s) (clock s) args with
    | Some event =>
        if snd (enqueue_event (event_queue (ctl s)) event)
        then [event] else []
    | None => []
    end in
  mkSystem (osc_handler (ctl s) (clock s) address args) (clock s) (phase s)
    (console s) (bulb_log s) (pushed s ++ queued) (dispatched s).

(** ** Runs *)

Inductive Action :=
| Tick (d : Q)                               (* time passes *)
| Osc (address : string) (args : list OscArg)  (* a message arrives *)
| Command (cmd : string)                     (* the operator types *)
| Dispatch (bulb_ok : bool).                 (* the coroutine resumes *)

(** [perf_counter] is monotone: time never runs backwards. *)
Definition advance (s : System) (d : Q) : System :=
  if Qle_bool 0 d
  then mkSystem (ctl s) (clock s + d)%Q (phase s) (console s) (bulb_log s)
         (pushed s) (dispatched s)
  else s.

Definition step (s : System) (a : Action) : System :=
  match a with
  | Tick d => advance s d
  | Osc address args => deliver s address args
  | Command cmd => command s cmd
  | Dispatch ok => dispatcher_step s ok
  end.

Definition run (s : System) (acts : list Action) : System :=
  foldl step s acts.

(** The system right after construction, at clock reading [t0]. *)
Definition boot (ip : string) (pulse : Q) (max_q : Z) (target t0 : Q)
  : System :=
  mkSystem (init ip pulse max_q target) t0 Starting [] [] [] [].

(** ** Handler threads

    [ThreadingOSCUDPServer] (line 312) serves every datagram in a thread
    of its own, so calls of [osc_handler] overlap each other and the
    dispatcher.  A handler thread is cut after each access to shared
    state: the clock (line 82), the counter (read at line 98, read and
    written again at line 101) and the queue (lines 105, 109 and 110;
    each queue operation holds the queue's own lock). *)

Inductive Handler :=
| Started (label : OscArg) (received : Q)   (* past line 92 *)
| Stamped (event : Event)                    (* event built, lines 95-99 *)
| Loaded (event : Event) (n : Z)             (* line 101, counter read *)
| Counted (event : Event)                    (* line 101, counter written *)
| Refused (event : Event)                    (* line 106, [Full] caught *)
| Freed (event : Event)                      (* line 109, oldest removed *)
| Returned.

Definition active (h : Handler) : bool :=
  match h with
  | Returned => false
  | _ => true
  end.

Record Threaded := mkThreaded {
  sys : System;
  handlers : list Handler
}.

(** A successful [put]: the event enters the queue and the history. *)
Definition store (s : System) (q : Queue) (event : Event) : System :=
  mkSystem (set_event_queue (ctl s) q) (clock s) (phase s) (console s)
    (bulb_log s) (pushed s ++ [event]) (dispatched s).

(** A handler thread runs up to its next access to shared state. *)
Definition handler_step (s : System) (h : Handler) : System * Handler :=
  match h with
  | Started label received =>
      (s, Stamped (mkEvent label received (total (stats (ctl s)))))
  | Stamped event => (s, Loaded event (total (stats (ctl s))))
  | Loaded event n =>
      (set_ctl s (set_stats (ctl s) (set_total (stats (ctl s)) (n + 1))),
       Counted event)
  | Counted event =>
      match put_nowait (event_queue (ctl s)) event with
      | Some q => (store s q event, Returned)
      | None => (s, Refused event)
      end
  | Refused event =>
      match get_nowait (event_queue (ctl s)) with
      | Some (_, q) => (set_ctl s (set_event_queue (ctl s) q), Freed event)
      | None => (s, Returned)
      end
  | Freed event =>
      match put_nowait (event_queue (ctl s)) event with
      | Some q => (store s q event, Returned)
      | None => (s, Returned)
      end
  | Returned => (s, Returned)
  end.

(** A datagram arrives: its thread reads the clock (line 82), parses the
    arguments and returns at once when there is no sound (line 92). *)
Definition arrive (t : Threaded) (address : string) (args : list OscArg)
  : Threaded :=
  let receive_time := clock (sys t) in
  match sound_of args with
  | Some label =>
      if truthy label
      then mkThreaded (sys t) (handlers t ++ [Started label receive_time])
      else t
  | None => t
  end.

Inductive TAction :=
| Atomic (a : Action)          (* a step of [System], handler call included *)
| Arrive (address : string) (args : list OscArg)   (* a thread starts *)
| Resume (i : nat).            (* the [i]-th handler thread runs on *)

Definition tstep (t : Threaded) (a : TAction) : Threaded :=
  match a with
  | Atomic a => mkThreaded (step (sys t) a) (handlers t)
  | Arrive address args => arrive t address args
  | Resume i =>
      match handlers t !! i with
      | Some h =>
          let (s, h') := handler_step (sys t) h in
          mkThreaded s (<[i := h']> (handlers t))
      | None => t
      end
  end.

Definition trun (t : Threaded) (acts : list TAction) : Threaded :=
  foldl tstep t acts.

Definition tboot (ip : string) (pulse : Q) (max_q : Z) (target t0 : Q)
  : Threaded :=
  mkThreaded (boot ip pulse max_q target t0) [].

(** Handler calls that do not overlap: a call begins only when every
    earlier call has returned. *)
Definition starts_handler (a : TAction) : bool :=
  match a with
  | Arrive _ _ | Atomic (Osc _ _) => true
  | _ => false
  end.

Definition all_returned (t : Threaded) : bool :=
  forallb (fun h => negb (active h)) (handlers t).

Fixpoint serial (t : Threaded) (acts : list TAction) : bool :=
  match acts with
  | [] => true
  | a :: rest =>
      (if starts_handler a then all_returned t else true)
      && serial (tstep t a) rest
  end.

(** ** Auxiliary notions used in the statements *)

(** The clamp of [update_delay], line 227. *)
Definition clamp (x : Q) : Q := py_max minimum_delay (py_min maximum_delay x).

(** The key/value pairs the parsing loop visits. *)
Fixpoint arg_pairs (args : list OscArg) : list (OscArg * OscArg) :=
  match args with
  | k :: v :: rest => (k, v) :: arg_pairs rest
  | _ => []
  end.

(** Messages that carry a sound label. *)
Definition labelled (args : list OscArg) : bool :=
  match sound_of args with
  | Some v => truthy v
  | None => false
  end.

(** Submissions: the messages of a run that carry a sound label. *)
Definition is_submission (a : Action) : bool :=
  match a with
  | Osc _ args => labelled args
  | _ => false
  end.

Fixpoint submissions (acts : list Action) : nat :=
  match acts with
  | [] => 0
  | a :: rest => (if is_submission a then 1 else 0) + submissions rest
  end.

(** The event the dispatcher has taken from the queue and not yet
    recorded a sample for. *)
Definition in_flight_event (p : Phase) : option Event :=
  match p with
  | Waiting e _ _ | Actuating e _ => Some e
  | _ => None
  end.

(** Orders on events, and the invariant of the running system. *)
Definition by_receive_time (a b : Event) : Prop :=
  (receive_time a <= receive_time b)%Q.

Definition by_event_id (a b : Event) : Prop := event_id a < event_id b.

Record Inv (s : System) : Prop := mkInv {
  inv_maxsize : maxsize (event_queue (ctl s)) = max_queue_size (ctl s);
  inv_bound :
    0 < max_queue_size (ctl s) ->
    qsize (event_queue (ctl s)) <= max_queue_size (ctl s);
  inv_past : Forall (fun e => (receive_time e <= clock s)%Q) (pushed s);
  inv_ids : Forall (fun e => event_id e < total (stats (ctl s))) (pushed s);
  inv_sorted_time : StronglySorted by_receive_time (pushed s);
  inv_sorted_id : StronglySorted by_event_id (pushed s);
  inv_order :
    dispatched s ++ items (event_queue (ctl s)) `sublist_of` pushed s;
  inv_phase :
    match phase s with
    | Waiting e _ _ => e ∈ dispatched s
    | Actuating e t =>
        e ∈ dispatched s /\ (receive_time e <= t)%Q /\ (t <= clock s)%Q
    | _ => True
    end;
  inv_latencies :
    Forall (fun x => (0 <= x)%Q) (measured_latencies (stats (ctl s)))
}.

(** What a handler thread knows about its event while it runs alone. *)
Definition holds (s : System) (h : Handler) : Prop :=
  match h with
  | Started _ received =>
      (received <= clock s)%Q /\
      Forall (fun x => (receive_time x <= received)%Q) (pushed s)
  | Stamped e =>
      (receive_time e <= clock s)%Q /\
      Forall (fun x => by_receive_time x e) (pushed s) /\
      event_id e = total (stats (ctl s))
  | Loaded e n =>
      (receive_time e <= clock s)%Q /\
      Forall (fun x => by_receive_time x e) (pushed s) /\
      event_id e = total (stats (ctl s)) /\
      n = total (stats (ctl s))
  | Counted e | Refused e | Freed e =>
      (receive_time e <= clock s)%Q /\
      Forall (fun x => by_receive_time x e) (pushed s) /\
      event_id e < total (stats (ctl s)) /\
      Forall (fun x => by_event_id x e) (pushed s)
  | Returned => True
  end.

(** The invariant of runs whose handler calls do not overlap. *)
Record Ser (t : Threaded) : Prop := mkSer {
  ser_inv : Inv (sys t);
  ser_holds : forall i h, handlers t !! i = Some h -> holds (sys t) h;
  ser_alone :
    forall i j h h',
      handlers t !! i = Some h -> handlers t !! j = Some h' ->
      active h = true -> active h' = true -> i = j
}.

(** Push order: what was dispatched, followed by what is queued, is what
    was pushed with some events left out. *)
Definition Ordered (s : System) : Prop :=
  dispatched s ++ items (event_queue (ctl s)) `sublist_of` pushed s.

(** The clock reading a handler thread took at line 82. *)
Definition handler_received (h : Handler) : option Q :=
  match h with
  | Started _ received => Some received
  | Stamped e | Loaded e _ | Counted e | Refused e | Freed e =>
      Some (receive_time e)
  | Returned => None
  end.

Definition timely (now : Q) (h : Handler) : Prop :=
  match handler_received h with
  | Some received => (received <= now)%Q
  | None => True
  end.

(** What every run keeps true, overlapping handler calls included:
    events were received in the past, the queue is first-in first-out,
    the event in flight was taken from the queue, and no sample is
    negative. *)
Record Causal (s : System) : Prop := mkCausal {
  causal_past : Forall (fun e => (receive_time e <= clock s)%Q) (pushed s);
  causal_order : Ordered s;
  causal_phase :
    match phase s with
    | Waiting e _ _ => e ∈ dispatched s
    | Actuating e t =>
        e ∈ dispatched s /\ (receive_time e <= t)%Q /\ (t <= clock s)%Q
    | _ => True
    end;
  causal_latencies :
    Forall (fun x => (0 <= x)%Q) (measured_latencies (stats (ctl s)))
}.

Definition Live (t : Threaded) : Prop :=
  Causal (sys t) /\ Forall (timely (clock (sys t))) (handlers t).

(** ** Sample configurations and inputs *)

Definition kick : list OscArg := [OStr "s"; OStr "bd"].

(** The default controller of [main], started at clock reading 0. *)
Definition default_boot : System :=
  boot "192.168.68.61" (5 # 100) 100 (250 # 1000) 0.



(** A message arrives 0.5 ms after the dispatcher started polling, is
    dequeued 0.1 ms later, and is then waited for and actuated. *)
Definition one_kick_dequeued : list Action :=
  [Dispatch true; Dispatch true; Tick (5 # 10000); Osc "/dirt/play" kick;
   Tick (1 # 10000); Dispatch true].

Definition one_kick_dispatched : list Action :=
  one_kick_dequeued
  ++ [Tick (1005 # 10000); Dispatch true; Tick (8 # 100); Dispatch true].

(** The same run, stopped while the bulb is on and the pulse is over. *)
Definition one_kick_actuating : list Action :=
  one_kick_dequeued ++ [Tick (1005 # 10000); Dispatch true; Tick (8 # 100)].

Definition actuating_event : Event := mkEvent (OStr "bd") (5 # 10000) 0.

Definition actuating_since : Q :=
  Eval vm_compute in
    match phase (run default_boot one_kick_actuating) with
    | Actuating _ t => t
    | _ => 0%Q
    end.



(** Twenty samples of 300 ms against a 250 ms target. *)
Definition twenty_late : Controller :=
  set_stats (init "192.168.68.61" (5 # 100) 100 (250 # 1000))
    (mkStats 20 (replicate 20 (3 # 10)%Q) [] 0 20).

(** Three samples only. *)
Definition three_late : Controller :=
  set_stats (init "192.168.68.61" (5 # 100) 100 (250 # 1000))
    (mkStats 3 (replicate 3 (3 # 10)%Q) [] 0 3).

(** A message with a note number and no sound. *)
Definition note_only : list OscArg := [OStr "n"; OInt 1].

(** The default controller with its server threads. *)
Definition default_tboot : Threaded :=
  tboot "192.168.68.61" (5 # 100) 100 (250 # 1000) 0.

Definition hat : list OscArg := [OStr "s"; OStr "hh"].

(** Two overlapping handler calls: the thread of a kick received at 1 s
    is suspended just before its [put]; the thread of a hi-hat received
    at 2 s runs to its end; then the first thread resumes. *)
Definition overlapping_handlers : list TAction :=
  [Atomic (Dispatch true); Atomic (Tick 1);
   Arrive "/dirt/play" kick; Resume 0; Resume 0; Resume 0;
   Atomic (Tick 1);
   Arrive "/dirt/play" hat; Resume 1; Resume 1; Resume 1; Resume 1;
   Resume 0;
   Atomic (Tick 1); Atomic (Dispatch true); Atomic (Dispatch true);
   Atomic (Tick 1); Atomic (Dispatch true); Atomic (Dispatch true);
   Atomic (Dispatch true)].

(** The same run one second later: the pulse of the kick is over. *)
Definition overlapping_due : list TAction :=
  overlapping_handlers ++ [Atomic (Tick 1)].

(** The same two messages, each handled before the next arrives. *)
Definition serial_handlers : list TAction :=
  [Atomic (Dispatch true); Atomic (Tick 1);
   Arrive "/dirt/play" kick; Resume 0; Resume 0; Resume 0; Resume 0;
   Atomic (Tick 1);
   Arrive "/dirt/play" hat; Resume 1; Resume 1; Resume 1; Resume 1;
   Atomic (Tick 1); Atomic (Dispatch true); Atomic (Dispatch true);
   Atomic (Tick 1); Atomic (Dispatch true); Atomic (Dispatch true);
   Atomic (Dispatch true)].

(** * Properties *)

(** ** Comparisons and clamping *)

Lemma Qltb_lt (a b : Q) : Qltb a b = true <-> (a < b)%Q.
Proof.
  unfold Qltb. rewrite negb_true_iff.
  split; intros H.
  - apply Qnot_le_lt. intros Hle. apply Qle_bool_iff in Hle. congruence.
  - destruct (Qle_bool b a) eqn:E; [|reflexivity].
    apply Qle_bool_iff in E. exfalso. apply (Qlt_not_le _ _ H E).
Qed.

Lemma Qltb_ge (a b : Q) : Qltb a b = false <-> (b <= a)%Q.
Proof.
  unfold Qltb. rewrite negb_false_iff. apply Qle_bool_iff.
Qed.

(** Case analysis on a comparison, leaving the order fact in the context. *)
Ltac case_Qltb a b :=
  let E := fresh "E" in
  destruct (Qltb a b) eqn:E;
  [apply Qltb_lt in E | apply Qltb_ge in E].

Lemma py_max_spec (a b : Q) :
  (a <= py_max a b)%Q /\ (b <= py_max a b)%Q /\
  (py_max a b == a \/ py_max a b == b)%Q.
Proof.
  unfold py_max. case_Qltb a b; repeat split; try lra; auto with qarith.
Qed.

Lemma py_min_spec (a b : Q) :
  (py_min a b <= a)%Q /\ (py_min a b <= b)%Q /\
  (py_min a b == a \/ py_min a b == b)%Q.
Proof.
  unfold py_min. case_Qltb b a; repeat split; try lra; auto with qarith.
Qed.

#[global] Instance py_max_proper : Proper (Qeq ==> Qeq ==> Qeq) py_max.
Proof.
  intros a a' Ha b b' Hb. unfold py_max.
  case_Qltb a b; case_Qltb a' b'; lra.
Qed.

#[global] Instance py_min_proper : Proper (Qeq ==> Qeq ==> Qeq) py_min.
Proof.
  intros a a' Ha b b' Hb. unfold py_min.
  case_Qltb b a; case_Qltb b' a'; lra.
Qed.

#[global] Instance clamp_proper : Proper (Qeq ==> Qeq) clamp.
Proof. intros x y H. unfold clamp. now rewrite H. Qed.

Lemma clamp_bounds (x : Q) :
  (minimum_delay <= clamp x)%Q /\ (clamp x <= maximum_delay)%Q.
Proof.
  unfold clamp.
  destruct (py_max_spec minimum_delay (py_min maximum_delay x))
    as (H1 & H2 & [H3 | H3]);
  destruct (py_min_spec maximum_delay x) as (H4 & H5 & H6);
  unfold minimum_delay, maximum_delay in *; split; lra.
Qed.

Lemma clamp_inside (x : Q) :
  (minimum_delay <= x)%Q -> (x <= maximum_delay)%Q -> (clamp x == x)%Q.
Proof.
  unfold clamp, py_max, py_min, minimum_delay, maximum_delay. intros H1 H2.
  case_Qltb x 1%Q.
  - case_Qltb (1 # 1000)%Q x; lra.
  - case_Qltb (1 # 1000)%Q 1%Q; lra.
Qed.

(** ** The latency model *)

Lemma update_delay_value (c : Controller) (adjustment_ms : Q) :
  (intentional_delay (fst (update_delay c adjustment_ms))
   == clamp (intentional_delay c + adjustment_ms / 1000))%Q.
Proof. reflexivity. Qed.

Lemma update_delay_bounds (c : Controller) (adjustment_ms : Q) :
  (minimum_delay <= intentional_delay (fst (update_delay c adjustment_ms)))%Q
  /\ (intentional_delay (fst (update_delay c adjustment_ms))
      <= maximum_delay)%Q.
Proof. apply clamp_bounds. Qed.

Lemma init_delay_lower (ip : string) (pulse : Q) (max_q : Z) (target : Q) :
  (minimum_delay <= intentional_delay (init ip pulse max_q target))%Q.
Proof. simpl. apply py_max_spec. Qed.

(** After any non-empty sequence of adjustments the delay is within the
    bounds, whatever it was before. *)
Lemma adjustments_bounds (c : Controller) (deltas : list Q) :
  deltas <> [] ->
  let c' := foldl (fun c d => fst (update_delay c d)) c deltas in
  (minimum_delay <= intentional_delay c')%Q /\
  (intentional_delay c' <= maximum_delay)%Q.
Proof.
  intros Hne. destruct (exists_last Hne) as (front & d & ->).
  cbn zeta. rewrite foldl_app. simpl. apply clamp_bounds.
Qed.

(** C3: with [target_latency = 2.0] the constructor leaves
    [intentional_delay] at 1.85 s, above the 1.0 s maximum that
    [update_delay] enforces: the initial value is only bounded from below,
    so the delay is not always within [minimum_delay, maximum_delay]. *)
Theorem init_delay_exceeds_maximum :
  (intentional_delay (init "192.168.68.61" (5 # 100) 100 2) == 185 # 100)%Q
  /\ (maximum_delay
      < intentional_delay (init "192.168.68.61" (5 # 100) 100 2))%Q
  /\ (intentional_delay
        (fst (update_delay (init "192.168.68.61" (5 # 100) 100 2) 10))
      == 1)%Q.
Proof. vm_compute. repeat split. Qed.

(** ** Manual adjustment *)

(** C8: [update_delay] changes [intentional_delay] and nothing else: the
    statistics (latency window, early and late counters, total), the
    queue, the target latency, the overhead terms and every other field
    are the same after the call, for every adjustment. *)
Theorem update_delay_frame (c : Controller) (adjustment_ms : Q) :
  stats (fst (update_delay c adjustment_ms)) = stats c /\
  target_latency (fst (update_delay c adjustment_ms)) = target_latency c /\
  system_overhead (fst (update_delay c adjustment_ms)) = system_overhead c /\
  bulb_response_time (fst (update_delay c adjustment_ms))
    = bulb_response_time c /\
  osc_receive_delay (fst (update_delay c adjustment_ms))
    = osc_receive_delay c /\
  event_queue (fst (update_delay c adjustment_ms)) = event_queue c /\
  scheduled_events (fst (update_delay c adjustment_ms))
    = scheduled_events c /\
  running (fst (update_delay c adjustment_ms)) = running c /\
  bulb (fst (update_delay c adjustment_ms)) = bulb c /\
  max_queue_size (fst (update_delay c adjustment_ms)) = max_queue_size c /\
  pulse_duration (fst (update_delay c adjustment_ms)) = pulse_duration c /\
  bulb_ip (fst (update_delay c adjustment_ms)) = bulb_ip c /\
  fst (update_delay c adjustment_ms)
    = set_intentional_delay c
        (intentional_delay (fst (update_delay c adjustment_ms))).
Proof. repeat split. Qed.

(** ** Automatic calibration *)

(** C5: with fewer than ten samples [calibrate_automatically] returns the
    controller as it was (delay and statistics included) and its only
    effect is the printed notice that more data is needed. *)
Theorem calibrate_insufficient_data (c : Controller) :
  (length (measured_latencies (stats c)) < min_calibration_samples)%nat ->
  calibrate_automatically c = (c, [LNeedMoreData]).
Proof.
  intros H. unfold calibrate_automatically.
  apply Nat.ltb_lt in H. now rewrite H.
Qed.

(** C4: with at least ten samples [calibrate_automatically] takes
    error = mean(window) - target_latency, passes exactly -error (in
    milliseconds) to [update_delay], so that the new delay is the clamp of
    the old delay minus the error, and then empties the window and zeroes
    the early and late counters; the total, the queue and the target are
    kept. *)
Theorem calibrate_applies_negated_error (c : Controller) :
  (min_calibration_samples <= length (measured_latencies (stats c)))%nat ->
  (intentional_delay (fst (calibrate_automatically c))
   == clamp (intentional_delay c
             - (mean (measured_latencies (stats c)) - target_latency c)))%Q
  /\ intentional_delay (fst (calibrate_automatically c))
     = intentional_delay
         (fst (update_delay c
                 (- (mean (measured_latencies (stats c)) - target_latency c)
                  * 1000)%Q))
  /\ measured_latencies (stats (fst (calibrate_automatically c))) = []
  /\ early_count (stats (fst (calibrate_automatically c))) = 0
  /\ late_count (stats (fst (calibrate_automatically c))) = 0
  /\ total (stats (fst (calibrate_automatically c))) = total (stats c)
  /\ event_queue (fst (calibrate_automatically c)) = event_queue c
  /\ target_latency (fst (calibrate_automatically c)) = target_latency c.
Proof.
  intros H. unfold calibrate_automatically.
  assert (Hlt : (length (measured_latencies (stats c))
                 <? min_calibration_samples)%nat = false)
    by (apply Nat.ltb_ge; exact H).
  rewrite Hlt. simpl.
  repeat split.
  fold (clamp (intentional_delay c
     + - (mean (measured_latencies (stats c)) - target_latency c) * 1000
       / 1000)).
  apply clamp_proper. field.
Qed.

(** ** Ingest *)

Lemma py_eq_sound_key (k : OscArg) :
  py_eq k (OStr "s") = true <-> k = OStr "s".
Proof.
  split.
  - destruct k; simpl; try discriminate.
    intros H. apply String.eqb_eq in H. now subst.
  - intros ->. reflexivity.
Qed.

Lemma py_eq_sound_key_set (k' k : OscArg) :
  py_eq k' k = true -> py_eq k' (OStr "s") = py_eq k (OStr "s").
Proof.
  destruct k', k; simpl; try discriminate; try reflexivity.
  intros H. apply String.eqb_eq in H. now subst.
Qed.

(** Looking up ['s'] after an assignment. *)
Lemma dict_get_set_sound (d : PyDict) (k v : OscArg) :
  dict_get (dict_set d k v) (OStr "s")
  = if py_eq k (OStr "s") then Some v else dict_get d (OStr "s").
Proof.
  induction d as [|[k' v'] rest IH]; [reflexivity|].
  cbn [dict_set dict_get].
  destruct (py_eq k' k) eqn:Ek.
  - cbn [dict_get]. rewrite (py_eq_sound_key_set _ _ Ek).
    destruct (py_eq k (OStr "s")); reflexivity.
  - cbn [dict_get]. rewrite IH.
    destruct (py_eq k' (OStr "s")) eqn:E1, (py_eq k (OStr "s")) eqn:E2;
      try reflexivity.
    apply py_eq_sound_key in E1, E2. subst. simpl in Ek. discriminate.
Qed.

Lemma parse_args_get_sound (args : list OscArg) (d : PyDict) :
  dict_get (parse_args d args) (OStr "s")
  = match dict_get (rev (arg_pairs args)) (OStr "s") with
    | Some v => Some v
    | None => dict_get d (OStr "s")
    end.
Proof.
  revert d. induction args as [args IH] using (induction_ltof1 _ (@length _)).
  unfold ltof in IH. intros d.
  destruct args as [|k [|v rest]]; try reflexivity.
  cbn [parse_args arg_pairs rev]. rewrite IH by (simpl; lia).
  rewrite dict_get_set_sound.
  assert (Happ : forall l1 l2 : PyDict,
             dict_get (l1 ++ l2) (OStr "s")
             = match dict_get l1 (OStr "s") with
               | Some x => Some x
               | None => dict_get l2 (OStr "s")
               end).
  { induction l1 as [|[a b] l1 IHl]; intros l2; [reflexivity|].
    simpl. destruct (py_eq a (OStr "s")); [reflexivity | apply IHl]. }
  rewrite Happ. simpl.
  destruct (dict_get (rev (arg_pairs rest)) (OStr "s")); [reflexivity|].
  destruct (py_eq k (OStr "s")); reflexivity.
Qed.

(** [sound_of] is the value paired with the last ['s'] key. *)
Lemma sound_of_last_pair (args : list OscArg) :
  sound_of args = dict_get (rev (arg_pairs args)) (OStr "s").
Proof.
  unfold sound_of. rewrite parse_args_get_sound.
  destruct (dict_get (rev (arg_pairs args)) (OStr "s")); reflexivity.
Qed.

Lemma Forall_rev_iff {A} (P : A -> Prop) (l : list A) :
  Forall P (rev l) <-> Forall P l.
Proof.
  split; intros H.
  - rewrite <- (rev_involutive l). now apply List.Forall_rev.
  - now apply List.Forall_rev.
Qed.

(** No ['s'] key among the pairs means no sound. *)
Lemma sound_of_none (args : list OscArg) :
  sound_of args = None <->
  Forall (fun kv => fst kv <> OStr "s") (arg_pairs args).
Proof.
  rewrite sound_of_last_pair, <- (Forall_rev_iff _ (arg_pairs args)).
  induction (rev (arg_pairs args)) as [|[k v] l IH]; simpl.
  - split; [constructor | reflexivity].
  - destruct (py_eq k (OStr "s")) eqn:E.
    + apply py_eq_sound_key in E. split; [discriminate|].
      intros H. inversion H; subst. simpl in *. congruence.
    + rewrite IH. split.
      * intros H. constructor; [|exact H]. simpl. intros ->.
        simpl in E. discriminate.
      * intros H. now inversion H.
Qed.

Lemma osc_event_labelled (c : Controller) (now : Q) (args : list OscArg) :
  osc_event c now args
  = if labelled args
    then match sound_of args with
         | Some v => Some (mkEvent v now (total (stats c)))
         | None => None
         end
    else None.
Proof.
  unfold osc_event, labelled.
  destruct (sound_of args) as [v|]; [|reflexivity].
  destruct (truthy v); reflexivity.
Qed.

(** C9: a message without an ['s'] key, or whose ['s'] value is empty
    (falsy), makes [osc_handler] return the controller untouched; the
    whole system, queue and total counter included, is as before. *)
Theorem osc_handler_ignores_unlabelled
    (s : System) (now : Q) (address : string) (args : list OscArg) :
  sound_of args = None \/
  (exists v, sound_of args = Some v /\ truthy v = false) ->
  osc_handler (ctl s) now address args = ctl s /\
  deliver s address args = s /\
  total (stats (ctl (deliver s address args))) = total (stats (ctl s)) /\
  event_queue (ctl (deliver s address args)) = event_queue (ctl s).
Proof.
  intros H.
  assert (Hev : forall t, osc_event (ctl s) t args = None).
  { intros t. unfold osc_event.
    destruct H as [-> | (v & -> & ->)]; reflexivity. }
  assert (Hh : forall t, osc_handler (ctl s) t address args = ctl s).
  { intros t. unfold osc_handler. now rewrite Hev. }
  assert (Hd : deliver s address args = s).
  { unfold deliver. rewrite Hev, Hh, app_nil_r. now destruct s. }
  rewrite Hd. auto.
Qed.

(** ** What each kind of step leaves alone *)

Lemma finish_event_eq (s : System) (e : Event) (t : Q) :
  finish_event s e t
  = set_phase
      (print (set_ctl s (fst (record_latency (ctl s) e t)))
         (snd (record_latency (ctl s) e t)))
      Idle.
Proof. unfold finish_event. now destruct (record_latency (ctl s) e t). Qed.

Lemma record_latency_frame (c : Controller) (e : Event) (t : Q) :
  total (stats (fst (record_latency c e t))) = total (stats c) /\
  event_queue (fst (record_latency c e t)) = event_queue c /\
  max_queue_size (fst (record_latency c e t)) = max_queue_size c /\
  target_latency (fst (record_latency c e t)) = target_latency c /\
  intentional_delay (fst (record_latency c e t)) = intentional_delay c /\
  running (fst (record_latency c e t)) = running c /\
  measured_latencies (stats (fst (record_latency c e t)))
  = deque_append latency_window (measured_latencies (stats c))
      (t - receive_time e)%Q.
Proof.
  unfold record_latency. cbn [fst].
  repeat match goal with
         | |- context [if ?b then _ else _] => destruct b
         end; repeat split.
Qed.

(** Destructs every test the current goal branches on. *)
Ltac split_tests :=
  repeat match goal with
         | |- context [match ?x with _ => _ end] => destruct x eqn:?
         end.

Ltac open_dispatcher :=
  unfold dispatcher_step, begin_actuation, setup_bulb;
  split_tests; rewrite ?finish_event_eq; cbn.

Lemma dispatcher_step_total (s : System) (ok : bool) :
  total (stats (ctl (dispatcher_step s ok))) = total (stats (ctl s)).
Proof.
  open_dispatcher; try reflexivity;
    try apply (record_latency_frame _ _ _).
  all: unfold get_nowait in *; split_tests; simplify_eq; reflexivity.
Qed.

(** A command touches the controller in one of four ways and leaves the
    clock, the coroutine and the histories alone. *)
Lemma command_cases (s : System) (cmd : string) :
  (ctl (command s cmd) = ctl s \/
   (exists a, ctl (command s cmd) = fst (update_delay (ctl s) a)) \/
   ctl (command s cmd) = fst (calibrate_automatically (ctl s)) \/
   ctl (command s cmd) = set_running (ctl s) false) /\
  clock (command s cmd) = clock s /\
  phase (command s cmd) = phase s /\
  pushed (command s cmd) = pushed s /\
  dispatched (command s cmd) = dispatched s.
Proof.
  unfold command.
  destruct (negb (running (ctl s))); [tauto|].
  destruct (String.eqb cmd "s"); [cbn; tauto|].
  destruct (String.eqb cmd "+"); [cbn; eauto 8|].
  destruct (String.eqb cmd "-"); [cbn; eauto 8|].
  destruct (String.eqb cmd "++"); [cbn; eauto 8|].
  destruct (String.eqb cmd "--"); [cbn; eauto 8|].
  destruct (String.eqb cmd "c").
  { destruct (calibrate_automatically (ctl s)) as [c out]. cbn. tauto. }
  destruct (String.eqb cmd "q"); [|cbn; tauto].
  unfold shutdown. cbn. destruct (bulb (ctl s)); cbn; tauto.
Qed.

Lemma calibrate_frame (c : Controller) :
  total (stats (fst (calibrate_automatically c))) = total (stats c) /\
  event_queue (fst (calibrate_automatically c)) = event_queue c /\
  max_queue_size (fst (calibrate_automatically c)) = max_queue_size c /\
  target_latency (fst (calibrate_automatically c)) = target_latency c /\
  running (fst (calibrate_automatically c)) = running c /\
  (measured_latencies (stats (fst (calibrate_automatically c)))
   = measured_latencies (stats c) \/
   measured_latencies (stats (fst (calibrate_automatically c))) = []).
Proof.
  unfold calibrate_automatically.
  destruct (_ <? _)%nat; cbn; tauto.
Qed.

Lemma command_total (s : System) (cmd : string) :
  total (stats (ctl (command s cmd))) = total (stats (ctl s)).
Proof.
  destruct (command_cases s cmd) as ([H | [(a & H) | [H | H]]] & _);
    rewrite H; try reflexivity.
  apply calibrate_frame.
Qed.

Lemma deliver_total (s : System) (address : string) (args : list OscArg) :
  total (stats (ctl (deliver s address args)))
  = total (stats (ctl s)) + (if labelled args then 1 else 0).
Proof.
  unfold deliver, osc_handler. cbn [ctl]. rewrite osc_event_labelled.
  unfold labelled. destruct (sound_of args) as [v|]; [|cbn; lia].
  destruct (truthy v); cbn; lia.
Qed.

Lemma advance_ctl (s : System) (d : Q) : ctl (advance s d) = ctl s.
Proof. unfold advance. now destruct (Qle_bool 0 d). Qed.

Lemma step_total (s : System) (a : Action) :
  total (stats (ctl (step s a)))
  = total (stats (ctl s)) + (if is_submission a then 1 else 0).
Proof.
  destruct a as [d|address args|cmd|ok]; cbn [step is_submission].
  - rewrite advance_ctl. lia.
  - apply deliver_total.
  - rewrite command_total. lia.
  - rewrite dispatcher_step_total. lia.
Qed.

Lemma run_total (acts : list Action) (s : System) :
  total (stats (ctl (run s acts)))
  = total (stats (ctl s)) + Z.of_nat (submissions acts).
Proof.
  revert s. induction acts as [|a rest IH]; intros s.
  - cbn. lia.
  - cbn [run foldl submissions]. fold (run (step s a) rest).
    rewrite IH, step_total. destruct (is_submission a); lia.
Qed.

(** ** The bounded queue *)

Lemma full_nonempty (q : Queue) : full q = true -> items q <> [].
Proof.
  unfold full, qsize. intros H Hnil. rewrite Hnil in H. cbn in H.
  apply andb_true_iff in H as [H1 H2].
  apply Z.ltb_lt in H1. apply Z.leb_le in H2. lia.
Qed.

(** The three ways lines 103-112 can end. *)
Lemma enqueue_event_cases (q : Queue) (e : Event) :
  maxsize (fst (enqueue_event q e)) = maxsize q /\
  ((full q = false /\
    items (fst (enqueue_event q e)) = items q ++ [e] /\
    snd (enqueue_event q e) = true) \/
   (exists oldest rest,
      full q = true /\ items q = oldest :: rest /\
      full (mkQueue (maxsize q) rest) = false /\
      items (fst (enqueue_event q e)) = rest ++ [e] /\
      snd (enqueue_event q e) = true) \/
   (exists oldest rest,
      full q = true /\ items q = oldest :: rest /\
      full (mkQueue (maxsize q) rest) = true /\
      items (fst (enqueue_event q e)) = rest /\
      snd (enqueue_event q e) = false)).
Proof.
  unfold enqueue_event, put_nowait.
  destruct (full q) eqn:Hfull; [|cbn; auto].
  unfold get_nowait.
  destruct (items q) as [|oldest rest] eqn:Hitems.
  { exfalso. now apply (full_nonempty q). }
  cbn [maxsize items].
  destruct (full (mkQueue (maxsize q) rest)) eqn:Hfull'; cbn.
  - split; [reflexivity|]. right. right. exists oldest, rest. auto.
  - split; [reflexivity|]. right. left. exists oldest, rest. auto.
Qed.

(** A queue that respects its capacity still does after an enqueue, and
    an enqueue on such a queue always stores the event. *)
Lemma enqueue_event_bounded (q : Queue) (e : Event) :
  0 < maxsize q -> qsize q <= maxsize q ->
  qsize (fst (enqueue_event q e)) <= maxsize q /\
  snd (enqueue_event q e) = true /\
  items (fst (enqueue_event q e))
  = (if full q then tail (items q) else items q) ++ [e].
Proof.
  intros Hpos Hle.
  destruct (enqueue_event_cases q e)
    as (_ & [(Hf & Hi & Hs) | [(o & r & Hf & Hq & Hf' & Hi & Hs)
                              | (o & r & Hf & Hq & Hf' & Hi & Hs)]]).
  - unfold qsize in *. rewrite Hf, Hi, Hs, length_app. cbn.
    unfold full, qsize in Hf. apply andb_false_iff in Hf as [Hf | Hf].
    + apply Z.ltb_ge in Hf. lia.
    + apply Z.leb_gt in Hf. repeat split; lia.
  - unfold qsize in *. rewrite Hf, Hi, Hs, Hq, length_app.
    rewrite Hq in Hle. cbn in *. repeat split; lia.
  - exfalso. unfold full, qsize in Hf'. cbn in Hf'.
    apply andb_true_iff in Hf' as [_ Hf']. apply Z.leb_le in Hf'.
    unfold qsize in Hle. rewrite Hq in Hle. cbn in Hle. lia.
Qed.

(** ** The invariant is established and preserved *)

Lemma inv_boot (ip : string) (pulse : Q) (max_q : Z) (target t0 : Q) :
  Inv (boot ip pulse max_q target t0).
Proof.
  constructor; cbn; try constructor; try reflexivity.
  unfold qsize. cbn. lia.
Qed.

Lemma inv_advance (s : System) (d : Q) : Inv s -> Inv (advance s d).
Proof.
  intros [H1 H2 H3 H4 H5 H6 H7 H8 H9]. unfold advance.
  destruct (Qle_bool 0 d) eqn:Hd; [|now constructor].
  apply Qle_bool_iff in Hd.
  constructor; cbn; auto.
  - eapply Forall_impl; [exact H3|]. cbn. intros e He. lra.
  - destruct (phase s); auto. destruct H8 as (Ha & Hb & Hc).
    repeat split; auto. lra.
Qed.

Lemma inv_print (s : System) (out : list Line) : Inv s -> Inv (print s out).
Proof. intros []. now constructor. Qed.

Lemma inv_send (s : System) (cmd : BulbCmd) : Inv s -> Inv (send s cmd).
Proof. intros []. now constructor. Qed.

Lemma inv_set_bulb (s : System) (b : bool) :
  Inv s -> Inv (set_ctl s (set_bulb (ctl s) b)).
Proof. intros []. now constructor. Qed.

Lemma inv_set_running (s : System) (b : bool) :
  Inv s -> Inv (set_ctl s (set_running (ctl s) b)).
Proof. intros []. now constructor. Qed.

Lemma inv_set_intentional_delay (s : System) (x : Q) :
  Inv s -> Inv (set_ctl s (set_intentional_delay (ctl s) x)).
Proof. intros []. now constructor. Qed.

Lemma inv_setup_bulb (s : System) (ok : bool) : Inv s -> Inv (setup_bulb s ok).
Proof.
  intros H. unfold setup_bulb.
  destruct ok; auto using inv_print, inv_send, inv_set_bulb.
Qed.

(** Changing the coroutine's position, given what the new position needs. *)
Lemma inv_set_phase (s : System) (p : Phase) :
  Inv s ->
  match p with
  | Waiting e _ _ => e ∈ dispatched s
  | Actuating e t =>
      e ∈ dispatched s /\ (receive_time e <= t)%Q /\ (t <= clock s)%Q
  | _ => True
  end ->
  Inv (set_phase s p).
Proof. intros [] Hp. now constructor. Qed.

Lemma Forall_tail {A} (P : A -> Prop) (l : list A) :
  Forall P l -> Forall P (tail l).
Proof. intros H. destruct l; [constructor | now inversion H]. Qed.

Lemma deque_append_Forall {A} (P : A -> Prop) (n : nat) (l : list A) (x : A) :
  Forall P l -> P x -> Forall P (deque_append n l x).
Proof.
  intros Hl Hx. unfold deque_append.
  assert (H : Forall P (l ++ [x])) by (apply Forall_app; auto).
  destruct (_ <? _)%nat; auto using Forall_tail.
Qed.

Lemma inv_record_latency (s : System) (e : Event) (t : Q) :
  Inv s -> (receive_time e <= t)%Q ->
  Inv (set_ctl s (fst (record_latency (ctl s) e t))).
Proof.
  intros [H1 H2 H3 H4 H5 H6 H7 H8 H9] Ht.
  destruct (record_latency_frame (ctl s) e t)
    as (F1 & F2 & F3 & F4 & F5 & F6 & F7).
  constructor; unfold set_ctl; cbn [ctl clock phase pushed dispatched];
    rewrite ?F1, ?F2, ?F3, ?F7; auto.
  apply deque_append_Forall; [exact H9 | lra].
Qed.

Lemma inv_finish_event (s : System) (e : Event) (t : Q) :
  Inv s -> (receive_time e <= t)%Q -> Inv (finish_event s e t).
Proof.
  intros H Ht. rewrite finish_event_eq.
  apply inv_set_phase; [|exact I].
  apply inv_print. now apply inv_record_latency.
Qed.

Lemma setup_bulb_frame (s : System) (ok : bool) :
  clock (setup_bulb s ok) = clock s /\
  dispatched (setup_bulb s ok) = dispatched s /\
  pushed (setup_bulb s ok) = pushed s.
Proof. unfold setup_bulb. destruct ok; cbn; auto. Qed.

Lemma inv_begin_actuation (s : System) (e : Event) (ok : bool) :
  Inv s -> e ∈ dispatched s -> Inv (begin_actuation s e ok).
Proof.
  intros H He.
  assert (Hrecv : (receive_time e <= clock s)%Q).
  { pose proof (inv_past s H) as Hp. rewrite Forall_forall in Hp.
    apply Hp. eapply sublist_subseteq; [apply (inv_order s H)|].
    apply elem_of_app. now left. }
  unfold begin_actuation.
  set (s1 := if bulb (ctl s) then s else setup_bulb s ok).
  assert (H1 : Inv s1)
    by (subst s1; destruct (bulb (ctl s)); auto using inv_setup_bulb).
  assert (Hc : clock s1 = clock s /\ dispatched s1 = dispatched s).
  { subst s1. destruct (bulb (ctl s)); [auto|].
    destruct (setup_bulb_frame s ok) as (? & ? & ?). auto. }
  destruct Hc as [Hc Hd].
  destruct ok.
  - apply inv_set_phase; [now apply inv_send|].
    cbn. rewrite Hc, Hd. repeat split; auto. lra.
  - apply inv_finish_event; [now apply inv_print | exact Hrecv].
Qed.

Lemma inv_dequeue (s : System) (e : Event) (rest : list Event) :
  Inv s -> items (event_queue (ctl s)) = e :: rest ->
  Inv (mkSystem
         (set_event_queue (ctl s)
            (mkQueue (maxsize (event_queue (ctl s))) rest))
         (clock s) (phase s) (console s) (bulb_log s) (pushed s)
         (dispatched s ++ [e])).
Proof.
  intros [H1 H2 H3 H4 H5 H6 H7 H8 H9] Hq.
  constructor; cbn; auto.
  - intros Hpos. specialize (H2 Hpos). unfold qsize in *.
    rewrite Hq in H2. cbn in *. lia.
  - rewrite Hq in H7. now rewrite <- app_assoc.
  - destruct (phase s); auto; rewrite elem_of_app; tauto.
Qed.

Lemma inv_dispatcher_step (s : System) (ok : bool) :
  Inv s -> Inv (dispatcher_step s ok).
Proof.
  intros H. unfold dispatcher_step.
  destruct (phase s) as [| |t0|e st w|e t|st|] eqn:Hph.
  - apply inv_set_phase; [|exact I].
    apply inv_print. now apply inv_setup_bulb.
  - destruct (running (ctl s)); now apply inv_set_phase.
  - unfold get_nowait.
    destruct (items (event_queue (ctl s))) as [|e rest] eqn:Hq.
    + destruct (Qle_bool _ _); [now apply inv_set_phase | exact H].
    + pose proof (inv_dequeue s e rest H Hq) as H'. rewrite Hph in H'.
      assert (He : e ∈ dispatched s ++ [e])
        by (apply elem_of_app; right; constructor).
      destruct (Qltb 0 _).
      * apply inv_set_phase; [exact H' | exact He].
      * apply inv_begin_actuation; [exact H' | exact He].
  - pose proof (inv_phase s H) as Hp. rewrite Hph in Hp.
    destruct (Qle_bool _ _); [|exact H].
    now apply inv_begin_actuation.
  - pose proof (inv_phase s H) as Hp. rewrite Hph in Hp.
    destruct Hp as (_ & Hrecv & _).
    destruct (Qle_bool _ _); [|exact H].
    apply inv_finish_event; [|exact Hrecv].
    destruct ok; auto using inv_send, inv_print.
  - destruct (Qle_bool _ _); [now apply inv_set_phase | exact H].
  - exact H.
Qed.

Lemma inv_calibrate (s : System) :
  Inv s -> Inv (set_ctl s (fst (calibrate_automatically (ctl s)))).
Proof.
  intros [H1 H2 H3 H4 H5 H6 H7 H8 H9].
  unfold calibrate_automatically.
  destruct (_ <? _)%nat; constructor; cbn; auto.
Qed.

(** An invariant that ignores the console and the bulb log carries over
    to any system with the same remaining components. *)
Lemma inv_same (s s' : System) :
  Inv s -> ctl s' = ctl s -> clock s' = clock s -> phase s' = phase s ->
  pushed s' = pushed s -> dispatched s' = dispatched s -> Inv s'.
Proof.
  intros [H1 H2 H3 H4 H5 H6 H7 H8 H9] E1 E2 E3 E4 E5.
  constructor; rewrite ?E1, ?E2, ?E3, ?E4, ?E5; auto.
Qed.

Lemma inv_command (s : System) (cmd : string) : Inv s -> Inv (command s cmd).
Proof.
  intros H.
  destruct (command_cases s cmd)
    as ([Hc | [(a & Hc) | [Hc | Hc]]] & Hk & Hp & Hu & Hd).
  - now apply (inv_same s).
  - apply (inv_same (set_ctl s (fst (update_delay (ctl s) a)))); auto.
    now apply inv_set_intentional_delay.
  - apply (inv_same (set_ctl s (fst (calibrate_automatically (ctl s)))));
      auto.
    now apply inv_calibrate.
  - apply (inv_same (set_ctl s (set_running (ctl s) false))); auto.
    now apply inv_set_running.
Qed.

Lemma inv_deliver (s : System) (address : string) (args : list OscArg) :
  Inv s -> Inv (deliver s address args).
Proof.
  intros H. unfold deliver, osc_handler.
  destruct (osc_event (ctl s) (clock s) args) as [e|] eqn:Hev.
  2:{ apply (inv_same s); auto. cbn. apply app_nil_r. }
  assert (Hrt : receive_time e = clock s /\ event_id e = total (stats (ctl s))).
  { unfold osc_event in Hev. destruct (sound_of args); [|discriminate].
    destruct (truthy o); [|discriminate]. now inversion Hev. }
  destruct Hrt as [Hrt Hid].
  destruct H as [H1 H2 H3 H4 H5 H6 H7 H8 H9].
  cbn [event_queue set_event_queue set_stats stats].
  set (q := event_queue (ctl s)) in *.
  assert (Hbefore_t : Forall (fun x => by_receive_time x e) (pushed s)).
  { eapply Forall_impl; [exact H3|]. unfold by_receive_time. cbn.
    intros x Hx. rewrite Hrt. exact Hx. }
  assert (Hbefore_i : Forall (fun x => by_event_id x e) (pushed s)).
  { eapply Forall_impl; [exact H4|]. unfold by_event_id. cbn.
    intros x Hx. lia. }
  assert (Hids : Forall (fun x => event_id x < total (stats (ctl s)) + 1)
                   (pushed s ++ [e])).
  { apply Forall_app. split.
    - eapply Forall_impl; [exact H4|]. cbn. intros x Hx. lia.
    - repeat constructor. lia. }
  assert (Hpast : Forall (fun x => (receive_time x <= clock s)%Q)
                    (pushed s ++ [e])).
  { apply Forall_app. split; [exact H3|]. repeat constructor.
    rewrite Hrt. lra. }
  assert (Hsorted : forall R : Event -> Event -> Prop,
             StronglySorted R (pushed s) ->
             Forall (fun x => R x e) (pushed s) ->
             StronglySorted R (pushed s ++ [e])).
  { intros R Hs Hall. apply StronglySorted_app. split; [|split]; auto.
    - intros x y Hx Hy. apply list_elem_of_singleton in Hy. subst y.
      rewrite Forall_forall in Hall. now apply Hall.
    - repeat constructor. }
  destruct (enqueue_event_cases q e)
    as (Hm & [(Hf & Hi & Hs) | [(o & r & Hf & Hq & Hf' & Hi & Hs)
                               | (o & r & Hf & Hq & Hf' & Hi & Hs)]]);
    rewrite Hs; constructor; cbn; rewrite ?Hm, ?Hi, ?app_nil_r; auto.
  - intros Hpos. specialize (H2 Hpos). unfold qsize in *.
    rewrite Hi, length_app. cbn.
    unfold full, qsize in Hf. apply andb_false_iff in Hf as [Hf | Hf].
    + apply Z.ltb_ge in Hf. lia.
    + apply Z.leb_gt in Hf. lia.
  - rewrite app_assoc. apply sublist_app; [exact H7 | reflexivity].
  - intros Hpos. specialize (H2 Hpos). unfold qsize in *.
    rewrite Hi, length_app. rewrite Hq in H2. cbn in *. lia.
  - rewrite app_assoc. apply sublist_app; [|reflexivity].
    etrans; [|exact H7]. rewrite Hq.
    apply sublist_app; [reflexivity|]. now apply sublist_cons.
  - intros Hpos. specialize (H2 Hpos). unfold qsize in *.
    rewrite Hi. rewrite Hq in H2. cbn in *. lia.
  - eapply Forall_impl; [exact H4|]. cbn. intros x Hx. lia.
  - etrans; [|exact H7]. rewrite Hq.
    apply sublist_app; [reflexivity|]. now apply sublist_cons.
Qed.

Lemma inv_step (s : System) (a : Action) : Inv s -> Inv (step s a).
Proof.
  destruct a; cbn [step];
    auto using inv_advance, inv_deliver, inv_command, inv_dispatcher_step.
Qed.

Lemma inv_run (acts : list Action) (s : System) : Inv s -> Inv (run s acts).
Proof.
  revert s. induction acts as [|a rest IH]; intros s H; [exact H|].
  cbn [run foldl]. apply IH. now apply inv_step.
Qed.




Lemma StronglySorted_sublist {A} (R : A -> A -> Prop) (l1 l2 : list A) :
  l1 `sublist_of` l2 -> StronglySorted R l2 -> StronglySorted R l1.
Proof.
  induction 1 as [|x l1 l2 Hsub IH|x l1 l2 Hsub IH]; intros Hs.
  - constructor.
  - apply StronglySorted_inv in Hs as [Hs Hall]. constructor; [auto|].
    rewrite Forall_forall in *. intros y Hy. apply Hall.
    eapply sublist_subseteq; eauto.
  - apply StronglySorted_inv in Hs as [Hs _]. auto.
Qed.

(** ** Capacity and overflow *)



(** ** The total counter *)

(** C10: a labelled message adds exactly one to [total], whatever happens
    to the queue (the event carries the counter's value from before the
    increment, and the increment does not depend on the enqueue); no step
    of the system ever lowers [total]; after any run [total] is the number
    of labelled messages submitted; and [print_stats] divides the early
    and late counters by [max(1, total)]. *)
Theorem total_counts_submissions
    (ip : string) (pulse : Q) (max_q : Z) (target t0 : Q)
    (acts : list Action) (s : System) (a : Action)
    (address : string) (args : list OscArg) (now : Q) :
  total (stats (ctl (deliver s address args)))
  = total (stats (ctl s)) + (if labelled args then 1 else 0) /\
  match osc_event (ctl s) now args with
  | Some e =>
      event_id e = total (stats (ctl s)) /\
      osc_handler (ctl s) now address args
      = set_event_queue
          (set_stats (ctl s)
             (set_total (stats (ctl s)) (total (stats (ctl s)) + 1)))
          (fst (enqueue_event (event_queue (ctl s)) e))
  | None => osc_handler (ctl s) now address args = ctl s
  end /\
  total (stats (ctl s)) <= total (stats (ctl (step s a))) /\
  total (stats (ctl (run (boot ip pulse max_q target t0) acts)))
  = Z.of_nat (submissions acts) /\
  match measured_latencies (stats (ctl s)) with
  | [] => print_stats (ctl s) = []
  | _ :: _ =>
      exists avg_ms std_ms_squared target_ms error_ms,
        print_stats (ctl s)
        = [LStats avg_ms std_ms_squared target_ms error_ms
             (Zq (early_count (stats (ctl s)))
              / Zq (Z.max 1 (total (stats (ctl s)))) * 100)%Q
             (Zq (late_count (stats (ctl s)))
              / Zq (Z.max 1 (total (stats (ctl s)))) * 100)%Q
             (qsize (event_queue (ctl s)))]
  end.
Proof.
  split; [apply deliver_total|].
  split.
  { unfold osc_handler.
    destruct (osc_event (ctl s) now args) as [e|] eqn:Hev; [|reflexivity].
    split; [|reflexivity].
    unfold osc_event in Hev. destruct (sound_of args); [|discriminate].
    destruct (truthy o); [|discriminate]. now inversion Hev. }
  split.
  { rewrite step_total. destruct (is_submission a); lia. }
  split.
  { rewrite run_total. cbn. lia. }
  unfold print_stats.
  destruct (measured_latencies (stats (ctl s))); [reflexivity|].
  eauto.
Qed.

(** ** Measured latency *)

(** C6, as stated, fails: the clock is read before [execute_light], not
    after it.  One 'bd' event is received at 0.0005 s and fully
    dispatched; its 80 ms pulse ends at clock reading 0.1811 s, yet the
    sample recorded is 0.1006 s, not 0.1811 - 0.0005 = 0.1806 s. *)
Lemma latency_excludes_actuation :
  phase (run default_boot one_kick_dispatched) = Idle /\
  (clock (run default_boot one_kick_dispatched) == 1811 # 10000)%Q /\
  map receive_time (dispatched (run default_boot one_kick_dispatched))
  = [(5 # 10000)%Q] /\
  exists x,
    measured_latencies (stats (ctl (run default_boot one_kick_dispatched)))
    = [x] /\
    (x == 1006 # 10000)%Q /\
    ~ (x == clock (run default_boot one_kick_dispatched) - (5 # 10000))%Q.
Proof.
  vm_compute. repeat split; try discriminate.
  eexists. repeat split; discriminate.
Qed.

Lemma begin_actuation_phase (s : System) (e : Event) (ok : bool) :
  phase (begin_actuation s e ok)
  = if ok then Actuating e (clock s) else Idle.
Proof.
  unfold begin_actuation. destruct ok.
  - reflexivity.
  - now rewrite finish_event_eq.
Qed.

(** The time stamp carried through an actuation is the clock reading of
    the very step that switched the bulb on. *)
Lemma actuation_start_reads_clock (s : System) (ok : bool) (e : Event) (t : Q) :
  phase (dispatcher_step s ok) = Actuating e t ->
  phase s = Actuating e t \/ t = clock s.
Proof.
  unfold dispatcher_step.
  destruct (phase s) as [| |t0|e' st w|e' t'|st|] eqn:Hph.
  - discriminate.
  - destruct (running (ctl s)); discriminate.
  - destruct (get_nowait _) as [[ev q]|].
    + destruct (Qltb 0 _); [discriminate|].
      rewrite begin_actuation_phase. destruct ok; [|discriminate].
      cbn. intros H. inversion H. now right.
    + destruct (Qle_bool _ _); cbn; rewrite ?Hph; discriminate.
  - destruct (Qle_bool _ _).
    + rewrite begin_actuation_phase. destruct ok; [|discriminate].
      intros H. inversion H. now right.
    + rewrite Hph. discriminate.
  - destruct (Qle_bool _ _).
    + rewrite finish_event_eq. discriminate.
    + rewrite Hph. intros H. now left.
  - destruct (Qle_bool _ _); cbn; rewrite ?Hph; discriminate.
  - rewrite Hph. discriminate.
Qed.

(** What the step that ends an actuation records. *)
Lemma actuation_end_records (s : System) (ok : bool) (e : Event) (t : Q) :
  phase s = Actuating e t ->
  (t + mapping_duration (ctl s) (sound_map_get (sound e)) <= clock s)%Q ->
  phase (dispatcher_step s ok) = Idle /\
  clock (dispatcher_step s ok) = clock s /\
  measured_latencies (stats (ctl (dispatcher_step s ok)))
  = deque_append latency_window (measured_latencies (stats (ctl s)))
      (t - receive_time e)%Q.
Proof.
  intros Hph Hdue. unfold dispatcher_step. rewrite Hph.
  apply Qle_bool_iff in Hdue. rewrite Hdue, finish_event_eq.
  destruct ok; cbn; repeat split; apply (record_latency_frame _ _ _).
Qed.

Lemma finish_event_effect (s : System) (e : Event) (t : Q) :
  pushed (finish_event s e t) = pushed s /\
  clock (finish_event s e t) = clock s /\
  dispatched (finish_event s e t) = dispatched s /\
  event_queue (ctl (finish_event s e t)) = event_queue (ctl s) /\
  phase (finish_event s e t) = Idle /\
  measured_latencies (stats (ctl (finish_event s e t)))
  = deque_append latency_window (measured_latencies (stats (ctl s)))
      (t - receive_time e)%Q.
Proof.
  rewrite finish_event_eq. cbn [pushed clock dispatched phase ctl set_phase
    print set_ctl].
  repeat split; apply (record_latency_frame _ _ _).
Qed.

Lemma begin_actuation_effect (s : System) (e : Event) (ok : bool) :
  pushed (begin_actuation s e ok) = pushed s /\
  clock (begin_actuation s e ok) = clock s /\
  dispatched (begin_actuation s e ok) = dispatched s /\
  event_queue (ctl (begin_actuation s e ok)) = event_queue (ctl s) /\
  if ok
  then phase (begin_actuation s e ok) = Actuating e (clock s) /\
       measured_latencies (stats (ctl (begin_actuation s e ok)))
       = measured_latencies (stats (ctl s))
  else phase (begin_actuation s e ok) = Idle /\
       measured_latencies (stats (ctl (begin_actuation s e ok)))
       = deque_append latency_window (measured_latencies (stats (ctl s)))
           (clock s - receive_time e)%Q.
Proof.
  unfold begin_actuation.
  set (s1 := if bulb (ctl s) then s else setup_bulb s ok).
  assert (H1 : pushed s1 = pushed s /\ clock s1 = clock s /\
               dispatched s1 = dispatched s /\
               event_queue (ctl s1) = event_queue (ctl s) /\
               stats (ctl s1) = stats (ctl s)).
  { subst s1. destruct (bulb (ctl s)); [now auto|].
    unfold setup_bulb. destruct ok; cbn; auto. }
  destruct H1 as (A1 & A2 & A3 & A4 & A5).
  destruct ok.
  - cbn [pushed clock dispatched phase ctl set_phase send].
    rewrite A1, A2, A3, A4, A5. repeat split; reflexivity.
  - destruct (finish_event_effect (print s1 [LLightError]) e (clock s))
      as (F1 & F2 & F3 & F4 & F5 & F6).
    rewrite F1, F2, F3, F4, F5, F6.
    cbn [pushed clock dispatched ctl print].
    rewrite A1, A2, A3, A4, A5. repeat split; reflexivity.
Qed.

(** Everything one resumption of the dispatcher can do to the queue, the
    list of dispatched events and the latency window: nothing; take the
    head of the queue (and, if switching the bulb on fails at once,
    record its sample); or record the sample of the event in flight. *)
Lemma dispatcher_step_cases (s : System) (ok : bool) :
  pushed (dispatcher_step s ok) = pushed s /\
  clock (dispatcher_step s ok) = clock s /\
  ((event_queue (ctl (dispatcher_step s ok)) = event_queue (ctl s) /\
    dispatched (dispatcher_step s ok) = dispatched s /\
    measured_latencies (stats (ctl (dispatcher_step s ok)))
    = measured_latencies (stats (ctl s)) /\
    in_flight_event (phase (dispatcher_step s ok))
    = in_flight_event (phase s)) \/
   (exists current_time e rest,
      phase s = Polling current_time /\
      items (event_queue (ctl s)) = e :: rest /\
      event_queue (ctl (dispatcher_step s ok))
      = mkQueue (maxsize (event_queue (ctl s))) rest /\
      dispatched (dispatcher_step s ok) = dispatched s ++ [e] /\
      ((measured_latencies (stats (ctl (dispatcher_step s ok)))
        = measured_latencies (stats (ctl s)) /\
        in_flight_event (phase (dispatcher_step s ok)) = Some e) \/
       (ok = false /\
        phase (dispatcher_step s ok) = Idle /\
        measured_latencies (stats (ctl (dispatcher_step s ok)))
        = deque_append latency_window (measured_latencies (stats (ctl s)))
            (clock s - receive_time e)%Q))) \/
   (exists e t,
      in_flight_event (phase s) = Some e /\
      phase (dispatcher_step s ok) = Idle /\
      event_queue (ctl (dispatcher_step s ok)) = event_queue (ctl s) /\
      dispatched (dispatcher_step s ok) = dispatched s /\
      measured_latencies (stats (ctl (dispatcher_step s ok)))
      = deque_append latency_window (measured_latencies (stats (ctl s)))
          (t - receive_time e)%Q /\
      (phase s = Actuating e t \/
       (ok = false /\ t = clock s /\
        exists sleep_start wait_time,
          phase s = Waiting e sleep_start wait_time)))).
Proof.
  unfold dispatcher_step.
  destruct (phase s) as [| |t0|e st w|e t|st|] eqn:Hph.
  - unfold setup_bulb. destruct ok; cbn; split; auto; split; auto;
      left; auto.
  - destruct (running (ctl s)); cbn; split; auto; split; auto; left; auto.
  - unfold get_nowait.
    destruct (items (event_queue (ctl s))) as [|e rest] eqn:Hq.
    + destruct (Qle_bool _ _); cbn; rewrite ?Hph; split; auto; split; auto;
        left; auto.
    + set (s1 := mkSystem
                   (set_event_queue (ctl s)
                      (mkQueue (maxsize (event_queue (ctl s))) rest))
                   (clock s) (Polling t0) (console s) (bulb_log s)
                   (pushed s) (dispatched s ++ [e])).
      destruct (Qltb 0 _).
      * cbn. split; auto. split; auto. right. left.
        exists t0, e, rest. repeat split; auto.
      * destruct (begin_actuation_effect s1 e ok) as (B1 & B2 & B3 & B4 & B5).
        rewrite B1, B2. split; auto. split; auto. right. left.
        exists t0, e, rest. rewrite B3, B4. repeat split; auto.
        destruct ok; destruct B5 as [B5 B6]; rewrite B5, B6; cbn; auto.
  - destruct (Qle_bool _ _).
    + destruct (begin_actuation_effect s e ok) as (B1 & B2 & B3 & B4 & B5).
      rewrite B1, B2. split; auto. split; auto.
      destruct ok; destruct B5 as [B5 B6].
      * left. rewrite B3, B4, B5, B6. auto.
      * right. right. exists e, (clock s). rewrite B3, B4, B5, B6.
        repeat split; auto. right. repeat split; eauto.
    + rewrite Hph. split; auto. split; auto; left; auto.
  - destruct (Qle_bool _ _).
    + destruct (finish_event_effect
                  (if ok then send s TurnOff else print s [LLightError]) e t)
        as (F1 & F2 & F3 & F4 & F5 & F6).
      rewrite F1, F2, F3, F4, F5, F6.
      assert (Hs : forall (A : Type) (f : System -> A),
                 (forall c, f (send s c) = f s) ->
                 (forall o, f (print s o) = f s) ->
                 f (if ok then send s TurnOff else print s [LLightError])
                 = f s)
        by (intros A f H1 H2; destruct ok; auto).
      rewrite (Hs _ pushed), (Hs _ clock), (Hs _ dispatched),
        (Hs _ (fun x => event_queue (ctl x))),
        (Hs _ (fun x => measured_latencies (stats (ctl x)))); auto.
      split; auto. split; auto. right. right. exists e, t.
      repeat split; auto.
    + rewrite Hph. split; auto. split; auto; left; auto.
  - destruct (Qle_bool _ _); cbn; rewrite ?Hph; split; auto; split; auto;
      left; auto.
  - rewrite Hph. split; auto. split; auto; left; auto.
Qed.

(** ** Dispatch order *)

Lemma put_nowait_cases (q : Queue) (e : Event) :
  (full q = false /\
   put_nowait q e = Some (mkQueue (maxsize q) (items q ++ [e]))) \/
  (full q = true /\ put_nowait q e = None).
Proof. unfold put_nowait. destruct (full q); auto. Qed.

Lemma ordered_put (D I P : list Event) (e : Event) :
  D ++ I `sublist_of` P -> D ++ (I ++ [e]) `sublist_of` P ++ [e].
Proof.
  intros H. rewrite app_assoc. apply sublist_app; [exact H | reflexivity].
Qed.

Lemma ordered_drop (D I P : list Event) (x : Event) :
  D ++ x :: I `sublist_of` P -> D ++ I `sublist_of` P.
Proof.
  intros H. etrans; [|exact H].
  apply sublist_app; [reflexivity|]. now apply sublist_cons.
Qed.

Lemma ordered_take (D I P : list Event) (x : Event) :
  D ++ x :: I `sublist_of` P -> (D ++ [x]) ++ I `sublist_of` P.
Proof. now rewrite <- app_assoc. Qed.

(** Every step of the system keeps the push order... *)
Lemma ordered_step (s : System) (a : Action) :
  Ordered s -> Ordered (step s a).
Proof.
  unfold Ordered. intros H.
  destruct a as [d|address args|cmd|ok]; cbn [step].
  - unfold advance. destruct (Qle_bool 0 d); exact H.
  - unfold deliver, osc_handler. cbn [ctl pushed dispatched].
    destruct (osc_event (ctl s) (clock s) args) as [e|].
    2:{ now rewrite app_nil_r. }
    cbn [event_queue set_event_queue set_stats].
    destruct (enqueue_event_cases (event_queue (ctl s)) e)
      as (_ & [(_ & Hi & Hs) | [(o & r & _ & Hq & _ & Hi & Hs)
                               | (o & r & _ & Hq & _ & Hi & Hs)]]);
      rewrite Hs, Hi.
    + now apply ordered_put.
    + rewrite Hq in H. apply ordered_put. now apply ordered_drop with o.
    + rewrite Hq in H. rewrite app_nil_r. now apply ordered_drop with o.
  - destruct (command_cases s cmd) as (Hc & _ & _ & Hp & Hd).
    rewrite Hp, Hd.
    assert (Hq : event_queue (ctl (command s cmd)) = event_queue (ctl s)).
    { destruct Hc as [Hc | [(x & Hc) | [Hc | Hc]]]; rewrite Hc;
        try reflexivity.
      apply calibrate_frame. }
    now rewrite Hq.
  - destruct (dispatcher_step_cases s ok)
      as (Hp & _ & [(Hq & Hd & _)
                   | [(ct & e & rest & _ & Hi & Hq & Hd & _)
                     | (e & t & _ & _ & Hq & Hd & _)]]);
      rewrite Hp, Hq, Hd; auto.
    cbn [items]. rewrite Hi in H. now apply ordered_take.
Qed.

(** ... and so does every step of a handler thread. *)
Lemma handler_step_ordered (s : System) (h : Handler) :
  Ordered s -> Ordered (fst (handler_step s h)).
Proof.
  unfold Ordered. intros H.
  destruct h as [l r|e|e n|e|e|e|]; cbn [handler_step fst]; auto.
  - destruct (put_nowait_cases (event_queue (ctl s)) e) as [[_ Hp] | [_ Hp]];
      rewrite Hp; cbn; [now apply ordered_put | exact H].
  - unfold get_nowait.
    destruct (items (event_queue (ctl s))) as [|o r] eqn:Hq; cbn.
    + now rewrite Hq.
    + now apply ordered_drop with o.
  - destruct (put_nowait_cases (event_queue (ctl s)) e) as [[_ Hp] | [_ Hp]];
      rewrite Hp; cbn; [now apply ordered_put | exact H].
Qed.

Lemma ordered_tstep (t : Threaded) (a : TAction) :
  Ordered (sys t) -> Ordered (sys (tstep t a)).
Proof.
  intros H. destruct a as [a|address args|i]; cbn [tstep sys].
  - now apply ordered_step.
  - unfold arrive.
    destruct (sound_of args) as [l|]; [destruct (truthy l)|]; exact H.
  - destruct (handlers t !! i) as [h|]; [|exact H].
    pose proof (handler_step_ordered (sys t) h H) as H'.
    destruct (handler_step (sys t) h) as [s h']. exact H'.
Qed.

Lemma ordered_trun (acts : list TAction) (t : Threaded) :
  Ordered (sys t) -> Ordered (sys (trun t acts)).
Proof.
  revert t. induction acts as [|a rest IH]; intros t H; [exact H|].
  cbn [trun foldl]. apply IH. now apply ordered_tstep.
Qed.

(** *** Handler calls that do not overlap *)

Lemma StronglySorted_snoc {A} (R : A -> A -> Prop) (l : list A) (x : A) :
  StronglySorted R l -> Forall (fun y => R y x) l ->
  StronglySorted R (l ++ [x]).
Proof.
  intros Hs Hall. apply StronglySorted_app. split; [|split]; auto.
  - intros a b Ha Hb. apply list_elem_of_singleton in Hb. subst b.
    rewrite Forall_forall in Hall. now apply Hall.
  - repeat constructor.
Qed.

Lemma inv_count (s : System) :
  Inv s ->
  Inv (set_ctl s
         (set_stats (ctl s)
            (set_total (stats (ctl s)) (total (stats (ctl s)) + 1)))).
Proof.
  intros [H1 H2 H3 H4 H5 H6 H7 H8 H9]. constructor; cbn; auto.
  eapply Forall_impl; [exact H4|]. cbn. intros x Hx. lia.
Qed.

Lemma inv_store (s : System) (e : Event) :
  Inv s -> full (event_queue (ctl s)) = false ->
  (receive_time e <= clock s)%Q ->
  event_id e < total (stats (ctl s)) ->
  Forall (fun x => by_receive_time x e) (pushed s) ->
  Forall (fun x => by_event_id x e) (pushed s) ->
  Inv (store s
         (mkQueue (maxsize (event_queue (ctl s)))
            (items (event_queue (ctl s)) ++ [e]))
         e).
Proof.
  intros [H1 H2 H3 H4 H5 H6 H7 H8 H9] Hf Hrt Hid Ht Hi.
  constructor; cbn; auto.
  - intros Hpos. specialize (H2 Hpos). unfold qsize in *. cbn.
    rewrite length_app. cbn.
    unfold full, qsize in Hf. apply andb_false_iff in Hf as [Hf | Hf].
    + apply Z.ltb_ge in Hf. lia.
    + apply Z.leb_gt in Hf. lia.
  - apply Forall_app. split; [exact H3|]. now repeat constructor.
  - apply Forall_app. split; [exact H4|]. now repeat constructor.
  - now apply StronglySorted_snoc.
  - now apply StronglySorted_snoc.
  - now apply ordered_put.
Qed.

Lemma inv_evict (s : System) (o : Event) (rest : list Event) :
  Inv s -> items (event_queue (ctl s)) = o :: rest ->
  Inv (set_ctl s
         (set_event_queue (ctl s)
            (mkQueue (maxsize (event_queue (ctl s))) rest))).
Proof.
  intros [H1 H2 H3 H4 H5 H6 H7 H8 H9] Hq. constructor; cbn; auto.
  - intros Hpos. specialize (H2 Hpos). unfold qsize in *. cbn.
    rewrite Hq in H2. cbn in H2. lia.
  - rewrite Hq in H7. now apply ordered_drop with o.
Qed.

Lemma holds_stable (s s' : System) (h : Handler) :
  (clock s <= clock s')%Q -> pushed s' = pushed s ->
  total (stats (ctl s')) = total (stats (ctl s)) ->
  holds s h -> holds s' h.
Proof.
  intros Hc Hp Ht. destruct h; cbn [holds]; rewrite ?Hp, ?Ht; auto;
    intros [Ha Hb]; (split; [lra | exact Hb]).
Qed.

Lemma holds_idle (s : System) (h : Handler) : active h = false -> holds s h.
Proof. destruct h; cbn; intros H; [discriminate..|exact I]. Qed.

Lemma all_returned_lookup (t : Threaded) (i : nat) (h : Handler) :
  all_returned t = true -> handlers t !! i = Some h -> active h = false.
Proof.
  unfold all_returned. rewrite forallb_forall. intros Hall Hi.
  apply negb_true_iff, Hall, list_elem_of_In.
  eapply list_elem_of_lookup_2, Hi.
Qed.

Lemma ser_tboot (ip : string) (pulse : Q) (max_q : Z) (target t0 : Q) :
  Ser (tboot ip pulse max_q target t0).
Proof.
  constructor; cbn [tboot sys handlers].
  - apply inv_boot.
  - intros i h Hi. now rewrite lookup_nil in Hi.
  - intros i j h h' Hi. now rewrite lookup_nil in Hi.
Qed.

(** The system moves on while the handler threads stand still. *)
Lemma ser_quiet (t : Threaded) (s' : System) :
  Ser t -> Inv s' -> (clock (sys t) <= clock s')%Q ->
  pushed s' = pushed (sys t) ->
  total (stats (ctl s')) = total (stats (ctl (sys t))) ->
  Ser (mkThreaded s' (handlers t)).
Proof.
  intros [H1 H2 H3] HI Hc Hp Ht. constructor; cbn [sys handlers]; auto.
  intros i h Hi. eapply holds_stable; eauto.
Qed.

Lemma ser_idle (t : Threaded) (s' : System) :
  Ser t -> all_returned t = true -> Inv s' ->
  Ser (mkThreaded s' (handlers t)).
Proof.
  intros [H1 H2 H3] Hall HI. constructor; cbn [sys handlers]; auto.
  intros i h Hi. apply holds_idle. eapply all_returned_lookup; eauto.
Qed.

Lemma ser_atomic (t : Threaded) (a : Action) :
  Ser t -> (starts_handler (Atomic a) = true -> all_returned t = true) ->
  Ser (tstep t (Atomic a)).
Proof.
  intros H Hall. cbn [tstep].
  assert (HI : Inv (step (sys t) a)) by apply inv_step, H.
  destruct a as [d|address args|cmd|ok].
  - apply ser_quiet; auto; cbn [step].
    + unfold advance. destruct (Qle_bool 0 d) eqn:Hd; cbn; [|lra].
      apply Qle_bool_iff in Hd. lra.
    + unfold advance. now destruct (Qle_bool 0 d).
    + now rewrite advance_ctl.
  - apply ser_idle; auto.
  - apply ser_quiet; auto; cbn [step].
    + destruct (command_cases (sys t) cmd) as (_ & Hc & _). rewrite Hc. lra.
    + apply command_cases.
    + apply command_total.
  - apply ser_quiet; auto; cbn [step].
    + destruct (dispatcher_step_cases (sys t) ok) as (_ & Hc & _).
      rewrite Hc. lra.
    + apply dispatcher_step_cases.
    + apply dispatcher_step_total.
Qed.

Lemma ser_arrive (t : Threaded) (address : string) (args : list OscArg) :
  Ser t -> all_returned t = true -> Ser (arrive t address args).
Proof.
  intros H Hall. unfold arrive. cbv zeta.
  destruct (sound_of args) as [l|]; [|exact H].
  destruct (truthy l); [|exact H].
  destruct H as [H1 H2 H3]. constructor; cbn [sys handlers]; auto.
  - intros i h Hi.
    apply lookup_snoc_Some in Hi as [[_ Hi] | [_ <-]]; [now eauto|].
    cbn [holds]. split; [lra | apply (inv_past _ H1)].
  - intros i j h h' Hi Hj Hh Hh'.
    apply lookup_snoc_Some in Hi as [[_ Hi] | [-> _]].
    { rewrite (all_returned_lookup t i h Hall Hi) in Hh. discriminate. }
    apply lookup_snoc_Some in Hj as [[_ Hj] | [-> _]].
    { rewrite (all_returned_lookup t j h' Hall Hj) in Hh'. discriminate. }
    reflexivity.
Qed.

(** The one running thread takes a step. *)
Lemma ser_update (t : Threaded) (i : nat) (h h' : Handler) (s' : System) :
  Ser t -> handlers t !! i = Some h -> active h = true ->
  Inv s' -> holds s' h' ->
  Ser (mkThreaded s' (<[i := h']> (handlers t))).
Proof.
  intros [H1 H2 H3] Hi Hh HI Hh'.
  assert (Hother : forall j x,
             <[i := h']> (handlers t) !! j = Some x ->
             (j = i /\ x = h') \/ (j <> i /\ active x = false)).
  { intros j x Hj. apply list_lookup_insert_Some in Hj
      as [(-> & -> & _) | (Hne & Hj)]; [now left|].
    right. split; [congruence|].
    destruct (active x) eqn:Hx; [|reflexivity].
    exfalso. apply Hne. symmetry. eapply H3; eauto. }
  constructor; cbn [sys handlers]; auto.
  - intros j x Hj. destruct (Hother j x Hj) as [[_ ->] | [_ Hx]];
      [exact Hh' | now apply holds_idle].
  - intros j k x y Hj Hk Hx Hy.
    destruct (Hother j x Hj) as [[-> _] | [_ Hx']]; [|congruence].
    destruct (Hother k y Hk) as [[-> _] | [_ Hy']]; [|congruence].
    reflexivity.
Qed.

Lemma ser_resume (t : Threaded) (i : nat) : Ser t -> Ser (tstep t (Resume i)).
Proof.
  intros H. cbn [tstep].
  destruct (handlers t !! i) as [h|] eqn:Hi; [|exact H].
  pose proof (ser_inv t H) as HI.
  pose proof (ser_holds t H i h Hi) as Hh.
  destruct h as [l r|e|e n|e|e|e|]; cbn [handler_step holds] in *.
  - destruct Hh as (Ha & Hb).
    apply (ser_update t i (Started l r)); auto. cbn [holds].
    repeat split; auto.
  - destruct Hh as (Ha & Hb & Hc).
    apply (ser_update t i (Stamped e)); auto. cbn [holds].
    repeat split; auto.
  - destruct Hh as (Ha & Hb & Hc & ->).
    apply (ser_update t i (Loaded e (total (stats (ctl (sys t)))))); auto.
    + now apply inv_count.
    + cbn. repeat split; auto; [lia|].
      eapply Forall_impl; [apply (inv_ids _ HI)|].
      unfold by_event_id. cbn. intros x Hx. lia.
  - destruct Hh as (Ha & Hb & Hc & Hd).
    destruct (put_nowait_cases (event_queue (ctl (sys t))) e)
      as [[Hf Hp] | [Hf Hp]]; rewrite Hp.
    + apply (ser_update t i (Counted e)); auto; [|exact I].
      now apply inv_store.
    + apply (ser_update t i (Counted e)); auto. cbn [holds]. auto.
  - destruct Hh as (Ha & Hb & Hc & Hd). unfold get_nowait.
    destruct (items (event_queue (ctl (sys t)))) as [|o rest] eqn:Hq.
    + apply (ser_update t i (Refused e)); auto. exact I.
    + apply (ser_update t i (Refused e)); auto.
      * now apply inv_evict with o.
      * cbn. auto.
  - destruct Hh as (Ha & Hb & Hc & Hd).
    destruct (put_nowait_cases (event_queue (ctl (sys t))) e)
      as [[Hf Hp] | [Hf Hp]]; rewrite Hp.
    + apply (ser_update t i (Freed e)); auto; [|exact I].
      now apply inv_store.
    + apply (ser_update t i (Freed e)); auto. exact I.
  - rewrite list_insert_id by exact Hi. now destruct t.
Qed.

Lemma ser_tstep (t : Threaded) (a : TAction) :
  Ser t -> (starts_handler a = true -> all_returned t = true) ->
  Ser (tstep t a).
Proof.
  intros H Hall. destruct a as [a|address args|i].
  - now apply ser_atomic.
  - cbn [tstep]. apply ser_arrive; auto.
  - now apply ser_resume.
Qed.

Lemma ser_trun (acts : list TAction) (t : Threaded) :
  Ser t -> serial t acts = true -> Ser (trun t acts).
Proof.
  revert t. induction acts as [|a rest IH]; intros t H Hs; [exact H|].
  cbn [serial] in Hs. apply andb_true_iff in Hs as [Ha Hs].
  cbn [trun foldl]. apply IH; [|exact Hs].
  apply ser_tstep; [exact H|]. intros Hst. now rewrite Hst in Ha.
Qed.

(** *** Handler calls in one piece

    [System] is the special case of [Threaded] in which no handler call
    is interrupted: a thread that runs from its arrival to its return
    without any other step in between does what [deliver] does, and runs
    made of [Atomic] steps are serial. *)

Lemma resume_last (s : System) (hs : list Handler) (h : Handler) :
  tstep (mkThreaded s (hs ++ [h])) (Resume (length hs))
  = mkThreaded (fst (handler_step s h)) (hs ++ [snd (handler_step s h)]).
Proof.
  cbn [tstep handlers sys]. rewrite list_lookup_middle by reflexivity.
  destruct (handler_step s h) as [s' h']. cbn [fst snd]. f_equal.
  rewrite insert_app_r_alt by lia. now rewrite Nat.sub_diag.
Qed.

Lemma uninterrupted_handler_delivers
    (t : Threaded) (address : string) (args : list OscArg) :
  sys (trun t (Arrive address args
               :: replicate 6 (Resume (length (handlers t)))))
  = deliver (sys t) address args.
Proof.
  destruct t as [s hs]. cbn [handlers sys]. unfold trun.
  cbn [foldl replicate].
  change (tstep (mkThreaded s hs) (Arrive address args))
    with (arrive (mkThreaded s hs) address args).
  unfold arrive, deliver, osc_handler, osc_event. cbn [sys handlers].
  assert (Hnone : mkSystem (ctl s) (clock s) (phase s) (console s)
                    (bulb_log s) (pushed s ++ []) (dispatched s) = s).
  { destruct s. cbn. now rewrite app_nil_r. }
  assert (Hstay : tstep (mkThreaded s hs) (Resume (length hs))
                  = mkThreaded s hs).
  { cbn [tstep handlers]. rewrite lookup_ge_None_2 by lia. reflexivity. }
  destruct (sound_of args) as [l|].
  2:{ rewrite !Hstay. now rewrite Hnone. }
  destruct (truthy l).
  2:{ rewrite !Hstay. now rewrite Hnone. }
  clear Hstay.
  set (e := mkEvent l (clock s) (total (stats (ctl s)))).
  rewrite resume_last. cbn [handler_step fst snd]. fold e.
  rewrite resume_last. cbn [handler_step fst snd].
  rewrite resume_last. cbn [handler_step fst snd].
  rewrite resume_last.
  cbn [handler_step ctl set_ctl event_queue set_stats].
  unfold enqueue_event.
  destruct (put_nowait (event_queue (ctl s)) e) as [q|] eqn:Hput.
  { cbn [fst snd]. rewrite !resume_last. reflexivity. }
  cbn [fst snd]. rewrite resume_last.
  cbn [handler_step ctl set_ctl event_queue set_stats].
  destruct (get_nowait (event_queue (ctl s))) as [[o q1]|] eqn:Hget.
  2:{ cbn [fst snd]. rewrite resume_last. cbn. destruct s. cbn.
      now rewrite app_nil_r. }
  cbn [fst snd]. rewrite resume_last.
  cbn [handler_step ctl set_ctl event_queue set_event_queue].
  destruct (put_nowait q1 e) as [q2|] eqn:Hput2.
  - reflexivity.
  - cbn. destruct s. cbn. now rewrite app_nil_r.
Qed.

Lemma trun_atomic (acts : list Action) (t : Threaded) :
  trun t (map Atomic acts) = mkThreaded (run (sys t) acts) (handlers t).
Proof.
  revert t. induction acts as [|a rest IH]; intros t; [now destruct t|].
  cbn [map trun foldl]. fold (trun (tstep t (Atomic a)) (map Atomic rest)).
  rewrite IH. reflexivity.
Qed.

Lemma serial_atomic (acts : list Action) (t : Threaded) :
  all_returned t = true -> serial t (map Atomic acts) = true.
Proof.
  revert t. induction acts as [|a rest IH]; intros t H; [reflexivity|].
  cbn [map serial]. rewrite IH by exact H.
  destruct (starts_handler (Atomic a)); now rewrite ?H.
Qed.

(** With overlapping handler calls the queue, and with it the dispatcher,
    follows the order of the [put]s, not of the receive times: the
    hi-hat received at 2 s is dispatched before the kick received at
    1 s. *)
Lemma overlapping_handlers_reorder :
  pushed (sys (trun default_tboot overlapping_handlers))
  = [mkEvent (OStr "hh") 2 1; mkEvent (OStr "bd") 1 0] /\
  dispatched (sys (trun default_tboot overlapping_handlers))
  = [mkEvent (OStr "hh") 2 1; mkEvent (OStr "bd") 1 0] /\
  ~ StronglySorted by_receive_time
      (dispatched (sys (trun default_tboot overlapping_handlers))) /\
  ~ StronglySorted by_event_id
      (dispatched (sys (trun default_tboot overlapping_handlers))).
Proof.
  assert (H : dispatched (sys (trun default_tboot overlapping_handlers))
              = [mkEvent (OStr "hh") 2 1; mkEvent (OStr "bd") 1 0])
    by (vm_compute; reflexivity).
  split; [vm_compute; reflexivity|]. split; [exact H|]. rewrite H.
  split; intros Hs; apply StronglySorted_inv in Hs as [_ Hs];
    apply Forall_inv in Hs.
  - unfold by_receive_time, Qle in Hs. cbn in Hs. lia.
  - unfold by_event_id in Hs. cbn in Hs. lia.
Qed.

(** C7 (amended): events are dispatched in the order in which they were
    put on the queue: in every run, whatever the interleaving of the
    handler threads, the dispatched events followed by the queued ones
    are the pushed events, in push order, with some left out.  That
    order is the order of the receive times, and of the event ids, in
    the runs whose handler calls do not overlap. *)
Theorem dispatch_preserves_push_order
    (ip : string) (pulse : Q) (max_q : Z) (target t0 : Q)
    (acts : list TAction) :
  dispatched (sys (trun (tboot ip pulse max_q target t0) acts))
    `sublist_of` pushed (sys (trun (tboot ip pulse max_q target t0) acts)) /\
  dispatched (sys (trun (tboot ip pulse max_q target t0) acts))
    ++ items (event_queue
                (ctl (sys (trun (tboot ip pulse max_q target t0) acts))))
    `sublist_of` pushed (sys (trun (tboot ip pulse max_q target t0) acts)) /\
  (serial (tboot ip pulse max_q target t0) acts = true ->
   StronglySorted by_receive_time
     (dispatched (sys (trun (tboot ip pulse max_q target t0) acts))) /\
   StronglySorted by_event_id
     (dispatched (sys (trun (tboot ip pulse max_q target t0) acts))) /\
   StronglySorted by_receive_time
     (dispatched (sys (trun (tboot ip pulse max_q target t0) acts))
      ++ items (event_queue
                  (ctl (sys (trun (tboot ip pulse max_q target t0) acts))))) /\
   StronglySorted by_event_id
     (dispatched (sys (trun (tboot ip pulse max_q target t0) acts))
      ++ items (event_queue
                  (ctl (sys (trun (tboot ip pulse max_q target t0) acts)))))).
Proof.
  set (t := trun (tboot ip pulse max_q target t0) acts).
  assert (Hord : Ordered (sys t)).
  { apply ordered_trun. unfold Ordered. cbn. constructor. }
  assert (Hsub : dispatched (sys t) `sublist_of` pushed (sys t)).
  { etrans; [|exact Hord]. now apply sublist_inserts_r. }
  split; [exact Hsub|]. split; [exact Hord|].
  intros Hser.
  assert (HS : Ser t) by (apply ser_trun; [apply ser_tboot | exact Hser]).
  pose proof (ser_inv t HS) as HI.
  repeat split.
  - eapply StronglySorted_sublist;
      [exact Hsub | apply (inv_sorted_time _ HI)].
  - eapply StronglySorted_sublist; [exact Hsub | apply (inv_sorted_id _ HI)].
  - eapply StronglySorted_sublist;
      [exact Hord | apply (inv_sorted_time _ HI)].
  - eapply StronglySorted_sublist; [exact Hord | apply (inv_sorted_id _ HI)].
Qed.

(** ** Samples in every run *)

Lemma causal_boot (ip : string) (pulse : Q) (max_q : Z) (target t0 : Q) :
  Causal (boot ip pulse max_q target t0).
Proof. constructor; unfold Ordered; cbn; constructor. Qed.

Lemma causal_advance (s : System) (d : Q) : Causal s -> Causal (advance s d).
Proof.
  intros [H1 H2 H3 H4]. unfold advance.
  destruct (Qle_bool 0 d) eqn:Hd; [|now constructor].
  apply Qle_bool_iff in Hd. constructor; cbn; auto.
  - eapply Forall_impl; [exact H1|]. cbn. intros e He. lra.
  - destruct (phase s); auto. destruct H3 as (Ha & Hb & Hc).
    repeat split; auto. lra.
Qed.

Lemma causal_deliver (s : System) (address : string) (args : list OscArg) :
  Causal s -> Causal (deliver s address args).
Proof.
  intros [H1 H2 H3 H4]. constructor.
  - unfold deliver. cbn [pushed clock]. apply Forall_app. split; [exact H1|].
    destruct (osc_event (ctl s) (clock s) args) as [e|] eqn:Hev;
      [|constructor].
    destruct (snd _); [|constructor]. repeat constructor.
    unfold osc_event in Hev. destruct (sound_of args); [|discriminate].
    destruct (truthy o); [|discriminate]. inversion Hev. cbn. lra.
  - exact (ordered_step s (Osc address args) H2).
  - unfold deliver. cbn [phase dispatched clock]. exact H3.
  - unfold deliver, osc_handler. cbn [ctl].
    destruct (osc_event _ _ _); cbn; exact H4.
Qed.

Lemma causal_command (s : System) (cmd : string) :
  Causal s -> Causal (command s cmd).
Proof.
  intros [H1 H2 H3 H4].
  destruct (command_cases s cmd) as (Hc & Hk & Hp & Hu & Hd).
  constructor.
  - now rewrite Hu, Hk.
  - exact (ordered_step s (Command cmd) H2).
  - now rewrite Hp, Hd, Hk.
  - destruct Hc as [Hc | [(x & Hc) | [Hc | Hc]]]; rewrite Hc; auto.
    destruct (calibrate_frame (ctl s)) as (_ & _ & _ & _ & _ & [Hm | Hm]);
      rewrite Hm; [exact H4 | constructor].
Qed.

Lemma causal_dispatcher_step (s : System) (ok : bool) :
  Causal s -> Causal (dispatcher_step s ok).
Proof.
  intros [H1 H2 H3 H4].
  pose proof (ordered_step s (Dispatch ok) H2) as H2'. cbn [step] in H2'.
  assert (Hin : forall x,
             x ∈ dispatched s ++ items (event_queue (ctl s)) ->
             (receive_time x <= clock s)%Q).
  { intros x Hx. rewrite Forall_forall in H1. apply H1.
    eapply sublist_subseteq; [exact H2 | exact Hx]. }
  assert (Hflown : forall x, in_flight_event (phase s) = Some x ->
                             x ∈ dispatched s).
  { intros x Hx. destruct (phase s); try discriminate; cbn in Hx;
      injection Hx as <-; [exact H3 | apply H3]. }
  destruct (dispatcher_step_cases s ok) as (Hp & Hc & Hcases).
  assert (Hfl : forall x,
             in_flight_event (phase (dispatcher_step s ok)) = Some x ->
             x ∈ dispatched (dispatcher_step s ok)).
  { intros x Hx.
    destruct Hcases
      as [(_ & Hd & _ & Hf)
         | [(ct & y & rest & _ & _ & _ & Hd & [[_ Hf] | (_ & Hf & _)])
           | (y & t & _ & Hf & _)]].
    - rewrite Hd. apply Hflown. now rewrite <- Hf.
    - rewrite Hd. rewrite Hf in Hx. injection Hx as <-.
      apply elem_of_app. right. constructor.
    - rewrite Hf in Hx. discriminate.
    - rewrite Hf in Hx. discriminate. }
  constructor.
  - now rewrite Hp, Hc.
  - exact H2'.
  - destruct (phase (dispatcher_step s ok)) as [| |?|e ? ?|e t|?|] eqn:Hph;
      try exact I; [apply Hfl; reflexivity|].
    split; [apply Hfl; reflexivity|]. rewrite Hc.
    destruct (actuation_start_reads_clock s ok e t Hph) as [Hold | ->].
    + rewrite Hold in H3. apply H3.
    + split; [|lra]. rewrite Forall_forall in H1. apply H1.
      rewrite <- Hp. eapply sublist_subseteq; [exact H2'|].
      apply elem_of_app. left. apply Hfl. reflexivity.
  - destruct Hcases
      as [(_ & _ & Hm & _)
         | [(ct & y & rest & _ & Hq & _ & _ & [[Hm _] | (_ & _ & Hm)])
           | (y & t & Hf & _ & _ & _ & Hm & Hwhy)]];
      rewrite Hm; auto; apply deque_append_Forall; auto.
    + assert (Hy : (receive_time y <= clock s)%Q).
      { apply Hin, elem_of_app. right. rewrite Hq. constructor. }
      lra.
    + destruct Hwhy as [Hact | (_ & -> & st & w & Hw)].
      * rewrite Hact in H3. destruct H3 as (_ & H3 & _). lra.
      * assert (Hy : (receive_time y <= clock s)%Q).
        { apply Hin, elem_of_app. left. now apply Hflown. }
        lra.
Qed.

Lemma causal_step (s : System) (a : Action) : Causal s -> Causal (step s a).
Proof.
  destruct a; cbn [step];
    auto using causal_advance, causal_deliver, causal_command,
      causal_dispatcher_step.
Qed.

Lemma step_clock (s : System) (a : Action) : (clock s <= clock (step s a))%Q.
Proof.
  destruct a as [d|address args|cmd|ok]; cbn [step].
  - unfold advance. destruct (Qle_bool 0 d) eqn:Hd; cbn; [|lra].
    apply Qle_bool_iff in Hd. lra.
  - unfold deliver. cbn. lra.
  - destruct (command_cases s cmd) as (_ & Hc & _). rewrite Hc. lra.
  - destruct (dispatcher_step_cases s ok) as (_ & Hc & _). rewrite Hc. lra.
Qed.

(** A handler thread touches neither the clock, the dispatcher nor the
    latency window; it pushes at most its own event. *)
Lemma handler_step_frame (s : System) (h : Handler) :
  clock (fst (handler_step s h)) = clock s /\
  phase (fst (handler_step s h)) = phase s /\
  dispatched (fst (handler_step s h)) = dispatched s /\
  measured_latencies (stats (ctl (fst (handler_step s h))))
  = measured_latencies (stats (ctl s)) /\
  (pushed (fst (handler_step s h)) = pushed s \/
   exists e, handler_received h = Some (receive_time e) /\
             pushed (fst (handler_step s h)) = pushed s ++ [e]) /\
  (forall now, timely now h -> timely now (snd (handler_step s h))).
Proof.
  destruct h as [l r|e|e n|e|e|e|]; cbn [handler_step].
  - cbn. repeat split; auto.
  - cbn. repeat split; auto.
  - cbn. repeat split; auto.
  - destruct (put_nowait (event_queue (ctl s)) e); cbn; repeat split; eauto.
  - destruct (get_nowait (event_queue (ctl s))) as [[o q]|]; cbn;
      repeat split; auto.
  - destruct (put_nowait (event_queue (ctl s)) e); cbn; repeat split; eauto.
  - cbn. repeat split; auto.
Qed.

Lemma causal_handler_step (s : System) (h : Handler) :
  Causal s -> timely (clock s) h -> Causal (fst (handler_step s h)).
Proof.
  intros [H1 H2 H3 H4] Hh.
  destruct (handler_step_frame s h) as (Hc & Hp & Hd & Hm & Hu & _).
  constructor.
  - rewrite Hc. destruct Hu as [-> | (e & He & ->)]; [exact H1|].
    apply Forall_app. split; [exact H1|]. repeat constructor.
    unfold timely in Hh. now rewrite He in Hh.
  - now apply handler_step_ordered.
  - now rewrite Hp, Hd, Hc.
  - now rewrite Hm.
Qed.

Lemma timely_later (now now' : Q) (h : Handler) :
  (now <= now')%Q -> timely now h -> timely now' h.
Proof.
  unfold timely. destruct (handler_received h); [|auto]. intros; lra.
Qed.

Lemma live_tboot (ip : string) (pulse : Q) (max_q : Z) (target t0 : Q) :
  Live (tboot ip pulse max_q target t0).
Proof. split; [apply causal_boot | constructor]. Qed.

Lemma live_tstep (t : Threaded) (a : TAction) : Live t -> Live (tstep t a).
Proof.
  intros [H1 H2]. destruct a as [a|address args|i]; cbn [tstep].
  - split; cbn [sys handlers]; [now apply causal_step|].
    eapply Forall_impl; [exact H2|]. intros h.
    apply timely_later, step_clock.
  - unfold arrive. cbv zeta.
    destruct (sound_of args) as [l|]; [|now split].
    destruct (truthy l); [|now split].
    split; cbn [sys handlers]; [exact H1|].
    apply Forall_app. split; [exact H2|]. repeat constructor.
    unfold timely. cbn. lra.
  - destruct (handlers t !! i) as [h|] eqn:Hi; [|now split].
    assert (Hh : timely (clock (sys t)) h).
    { rewrite Forall_forall in H2. eapply H2, list_elem_of_lookup_2, Hi. }
    pose proof (causal_handler_step (sys t) h H1 Hh) as H1'.
    destruct (handler_step_frame (sys t) h) as (Hc & _ & _ & _ & _ & Hn).
    specialize (Hn _ Hh).
    destruct (handler_step (sys t) h) as [s' h']. cbn [fst snd] in *.
    split; cbn [sys handlers]; [exact H1'|]. rewrite Hc.
    now apply Forall_insert.
Qed.

Lemma live_trun (acts : list TAction) (t : Threaded) :
  Live t -> Live (trun t acts).
Proof.
  revert t. induction acts as [|a rest IH]; intros t H; [exact H|].
  cbn [trun foldl]. apply IH. now apply live_tstep.
Qed.

(** C6 (amended): the sample recorded for an event is
    [actual_execute_time - receive_time], where [actual_execute_time] is
    the clock reading taken when the wait is over and the actuation
    starts (the on-hold-off cycle is not part of it), also when
    switching the bulb on fails; a dispatcher step records at most the
    sample of the event it has in flight or has just taken from the
    queue, no other step records one, and every recorded sample of every
    run is non-negative, however the handler threads interleave. *)
Theorem measured_latency_from_actuation_start
    (ip : string) (pulse : Q) (max_q : Z) (target t0 : Q)
    (acts : list TAction) (ok : bool) (e : Event) (t : Q) (a : TAction) :
  Forall (fun x => (0 <= x)%Q)
    (measured_latencies (stats (ctl (sys (trun (tboot ip pulse max_q target t0) acts))))) /\
  (phase (dispatcher_step (sys (trun (tboot ip pulse max_q target t0) acts)) ok) = Actuating e t ->
   phase (sys (trun (tboot ip pulse max_q target t0) acts)) = Actuating e t \/ t = clock (sys (trun (tboot ip pulse max_q target t0) acts))) /\
  (phase (sys (trun (tboot ip pulse max_q target t0) acts)) = Actuating e t ->
   (t + mapping_duration (ctl (sys (trun (tboot ip pulse max_q target t0) acts))) (sound_map_get (sound e))
    <= clock (sys (trun (tboot ip pulse max_q target t0) acts)))%Q ->
   measured_latencies (stats (ctl (dispatcher_step (sys (trun (tboot ip pulse max_q target t0) acts)) ok)))
   = deque_append latency_window
       (measured_latencies (stats (ctl (sys (trun (tboot ip pulse max_q target t0) acts)))))
       (t - receive_time e)%Q /\
   (0 <= t - receive_time e)%Q /\
   (t <= clock (sys (trun (tboot ip pulse max_q target t0) acts)))%Q) /\
  ((dispatched (dispatcher_step (sys (trun (tboot ip pulse max_q target t0) acts)) ok) = dispatched (sys (trun (tboot ip pulse max_q target t0) acts)) /\
    measured_latencies (stats (ctl (dispatcher_step (sys (trun (tboot ip pulse max_q target t0) acts)) ok)))
    = measured_latencies (stats (ctl (sys (trun (tboot ip pulse max_q target t0) acts)))) /\
    in_flight_event (phase (dispatcher_step (sys (trun (tboot ip pulse max_q target t0) acts)) ok))
    = in_flight_event (phase (sys (trun (tboot ip pulse max_q target t0) acts)))) \/
   (exists taken,
      in_flight_event (phase (sys (trun (tboot ip pulse max_q target t0) acts))) = None /\
      head (items (event_queue (ctl (sys (trun (tboot ip pulse max_q target t0) acts))))) = Some taken /\
      dispatched (dispatcher_step (sys (trun (tboot ip pulse max_q target t0) acts)) ok) = dispatched (sys (trun (tboot ip pulse max_q target t0) acts)) ++ [taken] /\
      ((measured_latencies (stats (ctl (dispatcher_step (sys (trun (tboot ip pulse max_q target t0) acts)) ok)))
        = measured_latencies (stats (ctl (sys (trun (tboot ip pulse max_q target t0) acts)))) /\
        in_flight_event (phase (dispatcher_step (sys (trun (tboot ip pulse max_q target t0) acts)) ok)) = Some taken) \/
       (ok = false /\
        in_flight_event (phase (dispatcher_step (sys (trun (tboot ip pulse max_q target t0) acts)) ok)) = None /\
        measured_latencies (stats (ctl (dispatcher_step (sys (trun (tboot ip pulse max_q target t0) acts)) ok)))
        = deque_append latency_window
            (measured_latencies (stats (ctl (sys (trun (tboot ip pulse max_q target t0) acts)))))
            (clock (sys (trun (tboot ip pulse max_q target t0) acts)) - receive_time taken)%Q /\
        (0 <= clock (sys (trun (tboot ip pulse max_q target t0) acts)) - receive_time taken)%Q))) \/
   (exists flying since,
      in_flight_event (phase (sys (trun (tboot ip pulse max_q target t0) acts))) = Some flying /\
      in_flight_event (phase (dispatcher_step (sys (trun (tboot ip pulse max_q target t0) acts)) ok)) = None /\
      dispatched (dispatcher_step (sys (trun (tboot ip pulse max_q target t0) acts)) ok) = dispatched (sys (trun (tboot ip pulse max_q target t0) acts)) /\
      measured_latencies (stats (ctl (dispatcher_step (sys (trun (tboot ip pulse max_q target t0) acts)) ok)))
      = deque_append latency_window
          (measured_latencies (stats (ctl (sys (trun (tboot ip pulse max_q target t0) acts)))))
          (since - receive_time flying)%Q /\
      (0 <= since - receive_time flying)%Q /\
      (phase (sys (trun (tboot ip pulse max_q target t0) acts)) = Actuating flying since \/
       (ok = false /\ since = clock (sys (trun (tboot ip pulse max_q target t0) acts)))))) /\
  match a with
  | Atomic (Dispatch _) => True
  | _ =>
      dispatched (sys (tstep (trun (tboot ip pulse max_q target t0) acts) a)) = dispatched (sys (trun (tboot ip pulse max_q target t0) acts)) /\
      phase (sys (tstep (trun (tboot ip pulse max_q target t0) acts) a)) = phase (sys (trun (tboot ip pulse max_q target t0) acts)) /\
      (measured_latencies (stats (ctl (sys (tstep (trun (tboot ip pulse max_q target t0) acts) a))))
       = measured_latencies (stats (ctl (sys (trun (tboot ip pulse max_q target t0) acts)))) \/
       measured_latencies (stats (ctl (sys (tstep (trun (tboot ip pulse max_q target t0) acts) a)))) = [])
  end.
Proof.
  set (T := trun (tboot ip pulse max_q target t0) acts).
  set (s := sys T).
  assert (HL : Causal s) by (apply live_trun, live_tboot).
  assert (Hpast : forall x, x ∈ pushed s -> (receive_time x <= clock s)%Q).
  { pose proof (causal_past s HL) as Hp. rewrite Forall_forall in Hp.
    exact Hp. }
  assert (Hsub : forall x,
             x ∈ dispatched s ++ items (event_queue (ctl s)) ->
             x ∈ pushed s).
  { intros x. apply sublist_subseteq, (causal_order s HL). }
  pose proof (causal_phase s HL) as Hp.
  split; [apply (causal_latencies s HL)|].
  split; [apply actuation_start_reads_clock|].
  split.
  { intros Hph Hdue.
    destruct (actuation_end_records s ok e t Hph Hdue) as (_ & _ & Hrec).
    rewrite Hph in Hp. destruct Hp as (_ & Hrecv & Hclk).
    repeat split; [exact Hrec | lra | exact Hclk]. }
  split.
  { destruct (dispatcher_step_cases s ok)
      as (_ & _ & [(_ & Hd & Hm & Hf)
                  | [(ct & x & rest & Hph & Hq & _ & Hd & Hrec)
                    | (x & since & Hf & Hph' & _ & Hd & Hm & Hwhy)]]).
    - left. auto.
    - right. left. exists x. rewrite Hph, Hq. cbn [in_flight_event head].
      split; [reflexivity|]. split; [reflexivity|]. split; [exact Hd|].
      destruct Hrec as [[Hm Hf] | (Hok & Hph' & Hm)]; [left; auto|].
      right. rewrite Hph'. repeat split; auto.
      assert (Hx : (receive_time x <= clock s)%Q).
      { apply Hpast, Hsub, elem_of_app. right. rewrite Hq. constructor. }
      lra.
    - right. right. exists x, since. rewrite Hph'.
      split; [exact Hf|]. split; [reflexivity|]. split; [exact Hd|].
      split; [exact Hm|].
      destruct Hwhy as [Hact | (Hok & Hsince & st & w & Hw)].
      + rewrite Hact in Hp. destruct Hp as (_ & Hrecv & _).
        split; [lra | now left].
      + rewrite Hw in Hp.
        assert (Hx : (receive_time x <= clock s)%Q).
        { apply Hpast, Hsub, elem_of_app. now left. }
        subst since. split; [lra | right; auto]. }
  assert (Hthread :
            forall i,
              dispatched (sys (tstep T (Resume i))) = dispatched s /\
              phase (sys (tstep T (Resume i))) = phase s /\
              (measured_latencies (stats (ctl (sys (tstep T (Resume i)))))
               = measured_latencies (stats (ctl s)) \/
               measured_latencies (stats (ctl (sys (tstep T (Resume i)))))
               = [])).
  { intros i. cbn [tstep]. destruct (handlers T !! i) as [h|]; [|now auto].
    destruct (handler_step_frame (sys T) h) as (_ & Hph & Hd & Hm & _).
    destruct (handler_step (sys T) h) as [s' h']. cbn [fst sys] in *. auto. }
  destruct a as [[d|address args|cmd|ok']|address args|i]; cbn [tstep sys step];
    fold s.
  - unfold advance. destruct (Qle_bool 0 d); cbn; auto.
  - unfold deliver, osc_handler. cbn [ctl phase dispatched].
    destruct (osc_event _ _ _); cbn; auto.
  - destruct (command_cases s cmd) as (Hc & _ & Hph & _ & Hd).
    split; [exact Hd|]. split; [exact Hph|].
    destruct Hc as [Hc | [(x & Hc) | [Hc | Hc]]]; rewrite Hc; auto.
    apply calibrate_frame.
  - exact I.
  - unfold arrive. cbv zeta.
    destruct (sound_of args) as [l|]; [destruct (truthy l)|]; cbn; auto.
  - apply Hthread.
Qed.

(** ** The deadline wait *)

(** What the dispatcher does with the event it dequeues: the wait is
    measured from the clock reading taken at the loop head, before the
    blocking [get]; the event is then slept for or actuated at once, never
    skipped. *)
Lemma dequeue_wait_time
    (s : System) (ok : bool) (current_time : Q) (e : Event)
    (rest : list Event) :
  phase s = Polling current_time ->
  items (event_queue (ctl s)) = e :: rest ->
  dispatched (dispatcher_step s ok) = dispatched s ++ [e] /\
  items (event_queue (ctl (dispatcher_step s ok))) = rest /\
  phase (dispatcher_step s ok)
  = if Qltb 0 (receive_time e + intentional_delay (ctl s) - current_time)
    then Waiting e (clock s)
           (receive_time e + intentional_delay (ctl s) - current_time)
    else if ok then Actuating e (clock s) else Idle.
Proof.
  intros Hph Hq. unfold dispatcher_step, get_nowait. rewrite Hph, Hq.
  cbn [ctl clock intentional_delay set_event_queue].
  destruct (Qltb 0 _).
  - cbn. auto.
  - rewrite begin_actuation_phase. cbn [clock].
    unfold begin_actuation. cbn [ctl bulb set_event_queue].
    destruct (bulb (ctl s)), ok; rewrite ?finish_event_eq; cbn;
      repeat split; apply (record_latency_frame _ _ _).
Qed.

(** C1: the wait is computed against a stale clock reading.  The
    dispatcher starts polling at 0 s; a 'bd' event is received at
    0.0005 s and dequeued at 0.0006 s.  With [intentional_delay] = 0.1 s
    the deadline is 0.1005 s, so 0.0999 s remain, but the coroutine
    sleeps 0.1005 s (deadline minus the reading taken before [get]) and
    cannot wake before 0.1011 s. *)
Theorem wait_ignores_time_spent_polling :
  exists e sleep_start wait_time,
    phase (run default_boot one_kick_dequeued)
    = Waiting e sleep_start wait_time /\
    sleep_start = clock (run default_boot one_kick_dequeued) /\
    (sleep_start == 6 # 10000)%Q /\
    (receive_time e == 5 # 10000)%Q /\
    (intentional_delay (ctl (run default_boot one_kick_dequeued))
     == 1 # 10)%Q /\
    (wait_time == 1005 # 10000)%Q /\
    ~ (wait_time
       == receive_time e
          + intentional_delay (ctl (run default_boot one_kick_dequeued))
          - sleep_start)%Q /\
    (receive_time e
     + intentional_delay (ctl (run default_boot one_kick_dequeued))
     < sleep_start + wait_time)%Q.
Proof.
  vm_compute. do 3 eexists. repeat split; discriminate.
Qed.

(** ** Worked instances *)

Lemma calibrate_insufficient_data_witness :
  (length (measured_latencies (stats three_late))
   < min_calibration_samples)%nat /\
  calibrate_automatically three_late = (three_late, [LNeedMoreData]).
Proof.
  assert (H : (length (measured_latencies (stats three_late))
               < min_calibration_samples)%nat) by (vm_compute; lia).
  split; [exact H|]. exact (calibrate_insufficient_data three_late H).
Defined.

Lemma calibrate_applies_negated_error_witness :
  (min_calibration_samples
   <= length (measured_latencies (stats twenty_late)))%nat /\
  (intentional_delay twenty_late == 100 # 1000)%Q /\
  (intentional_delay (fst (calibrate_automatically twenty_late))
   == 50 # 1000)%Q /\
  measured_latencies (stats (fst (calibrate_automatically twenty_late))) = []
  /\ early_count (stats (fst (calibrate_automatically twenty_late))) = 0
  /\ late_count (stats (fst (calibrate_automatically twenty_late))) = 0.
Proof.
  assert (H : (min_calibration_samples
               <= length (measured_latencies (stats twenty_late)))%nat)
    by (vm_compute; lia).
  destruct (calibrate_applies_negated_error twenty_late H)
    as (H1 & _ & H3 & H4 & H5 & _).
  split; [exact H|]. split; [reflexivity|].
  split; [|auto]. rewrite H1. reflexivity.
Defined.

Lemma osc_handler_ignores_unlabelled_witness :
  (sound_of note_only = None \/
   (exists v, sound_of note_only = Some v /\ truthy v = false)) /\
  deliver default_boot "/dirt/play" note_only = default_boot.
Proof.
  assert (H : sound_of note_only = None \/
              (exists v, sound_of note_only = Some v /\ truthy v = false))
    by (left; reflexivity).
  split; [exact H|].
  apply (osc_handler_ignores_unlabelled default_boot 0 "/dirt/play"
           note_only H).
Defined.


Lemma measured_latency_from_actuation_start_witness :
  phase (sys (trun default_tboot overlapping_due))
  = Actuating (mkEvent (OStr "bd") 1 0) 4 /\
  (4 + mapping_duration (ctl (sys (trun default_tboot overlapping_due)))
         (sound_map_get (OStr "bd"))
   <= clock (sys (trun default_tboot overlapping_due)))%Q /\
  measured_latencies
    (stats
       (ctl (dispatcher_step (sys (trun default_tboot overlapping_due)) true)))
  = [(3 - 2)%Q; (4 - 1)%Q] /\
  (0 <= 4 - 1)%Q.
Proof.
  assert (Hph : phase (sys (trun default_tboot overlapping_due))
                = Actuating (mkEvent (OStr "bd") 1 0) 4)
    by (vm_compute; reflexivity).
  assert (Hdue : (4 + mapping_duration
                        (ctl (sys (trun default_tboot overlapping_due)))
                        (sound_map_get (sound (mkEvent (OStr "bd") 1 0)))
                  <= clock (sys (trun default_tboot overlapping_due)))%Q)
    by (vm_compute; discriminate).
  destruct (measured_latency_from_actuation_start "192.168.68.61" (5 # 100)
              100 (250 # 1000) 0 overlapping_due true
              (mkEvent (OStr "bd") 1 0) 4 (Resume 0)) as (_ & _ & Hrec & _).
  destruct (Hrec Hph Hdue) as (Hlat & Hpos & _).
  split; [exact Hph|]. split; [exact Hdue|]. split; [|exact Hpos].
  unfold default_tboot. rewrite Hlat. vm_compute. reflexivity.
Defined.

(** When switching the bulb on fails the sample is still measured from
    the clock reading taken when the wait is over. *)
Example failed_turn_on_records_latency :
  in_flight_event
    (phase (run default_boot (one_kick_dequeued ++ [Tick (1005 # 10000)])))
  = Some actuating_event /\
  measured_latencies
    (stats
       (ctl (run default_boot
               (one_kick_dequeued ++ [Tick (1005 # 10000); Dispatch false]))))
  = [(clock (run default_boot (one_kick_dequeued ++ [Tick (1005 # 10000)]))
      - receive_time actuating_event)%Q] /\
  ~ (clock (run default_boot (one_kick_dequeued ++ [Tick (1005 # 10000)]))
     - receive_time actuating_event == 0)%Q.
Proof.
  split; [vm_compute; reflexivity|]. split; [vm_compute; reflexivity|].
  vm_compute. discriminate.
Qed.

Lemma dispatch_preserves_push_order_witness :
  serial default_tboot serial_handlers = true /\
  dispatched (sys (trun default_tboot serial_handlers))
  = [mkEvent (OStr "bd") 1 0; mkEvent (OStr "hh") 2 1] /\
  StronglySorted by_receive_time
    (dispatched (sys (trun default_tboot serial_handlers))) /\
  StronglySorted by_event_id
    (dispatched (sys (trun default_tboot serial_handlers))).
Proof.
  assert (H : serial default_tboot serial_handlers = true)
    by (vm_compute; reflexivity).
  destruct (dispatch_preserves_push_order "192.168.68.61" (5 # 100) 100
              (250 # 1000) 0 serial_handlers) as (_ & _ & Hs).
  destruct (Hs H) as (Ht & Hi & _).
  split; [exact H|]. split; [vm_compute; reflexivity|].
  unfold default_tboot. split; [exact Ht | exact Hi].
Defined.

(** * Further properties of the controller *)

(** ** What the dispatcher and the handlers leave alone *)

Lemma record_latency_only_stats (c : Controller) (e : Event) (t : Q) :
  fst (record_latency c e t)
  = set_stats c (stats (fst (record_latency c e t))).
Proof. reflexivity. Qed.

(** The fields no dispatcher step, message or clock tick writes. *)
Definition same_settings (c c' : Controller) : Prop :=
  bulb_ip c' = bulb_ip c /\
  pulse_duration c' = pulse_duration c /\
  max_queue_size c' = max_queue_size c /\
  target_latency c' = target_latency c /\
  scheduled_events c' = scheduled_events c /\
  system_overhead c' = system_overhead c /\
  bulb_response_time c' = bulb_response_time c /\
  osc_receive_delay c' = osc_receive_delay c.

Lemma same_settings_refl (c : Controller) : same_settings c c.
Proof. repeat split. Qed.

Lemma same_settings_trans (c1 c2 c3 : Controller) :
  same_settings c1 c2 -> same_settings c2 c3 -> same_settings c1 c3.
Proof.
  unfold same_settings. intros H12 H23.
  destruct H12 as (A1 & A2 & A3 & A4 & A5 & A6 & A7 & A8).
  destruct H23 as (B1 & B2 & B3 & B4 & B5 & B6 & B7 & B8).
  repeat split; congruence.
Qed.

Lemma dispatcher_step_frame (s : System) (ok : bool) :
  same_settings (ctl s) (ctl (dispatcher_step s ok)) /\
  intentional_delay (ctl (dispatcher_step s ok)) = intentional_delay (ctl s) /\
  running (ctl (dispatcher_step s ok)) = running (ctl s) /\
  clock (dispatcher_step s ok) = clock s /\
  pushed (dispatcher_step s ok) = pushed s.
Proof.
  unfold same_settings.
  open_dispatcher; rewrite ?record_latency_only_stats; cbn;
    repeat split; assumption.
Qed.

Lemma deliver_frame (s : System) (address : string) (args : list OscArg) :
  same_settings (ctl s) (ctl (deliver s address args)) /\
  intentional_delay (ctl (deliver s address args))
  = intentional_delay (ctl s) /\
  running (ctl (deliver s address args)) = running (ctl s) /\
  bulb (ctl (deliver s address args)) = bulb (ctl s) /\
  measured_latencies (stats (ctl (deliver s address args)))
  = measured_latencies (stats (ctl s)) /\
  early_count (stats (ctl (deliver s address args)))
  = early_count (stats (ctl s)) /\
  late_count (stats (ctl (deliver s address args)))
  = late_count (stats (ctl s)) /\
  clock (deliver s address args) = clock s /\
  phase (deliver s address args) = phase s /\
  console (deliver s address args) = console s /\
  bulb_log (deliver s address args) = bulb_log s /\
  dispatched (deliver s address args) = dispatched s.
Proof.
  unfold deliver, osc_handler, same_settings. cbn [ctl clock phase console
    bulb_log dispatched].
  destruct (osc_event _ _ _); cbn; repeat split.
Qed.

Lemma calibrate_settings (c : Controller) :
  same_settings c (fst (calibrate_automatically c)) /\
  running (fst (calibrate_automatically c)) = running c /\
  bulb (fst (calibrate_automatically c)) = bulb c.
Proof.
  unfold calibrate_automatically, same_settings.
  destruct (_ <? _)%nat; cbn; repeat split.
Qed.

Lemma command_settings (s : System) (cmd : string) :
  same_settings (ctl s) (ctl (command s cmd)).
Proof.
  destruct (command_cases s cmd) as ([H | [(a & H) | [H | H]]] & _);
    rewrite H; try (repeat split; fail).
  apply calibrate_settings.
Qed.

Lemma step_settings (s : System) (a : Action) :
  same_settings (ctl s) (ctl (step s a)).
Proof.
  destruct a as [d|address args|cmd|ok]; cbn [step].
  - rewrite advance_ctl. apply same_settings_refl.
  - apply deliver_frame.
  - apply command_settings.
  - apply dispatcher_step_frame.
Qed.

Lemma run_settings (acts : list Action) (s : System) :
  same_settings (ctl s) (ctl (run s acts)).
Proof.
  revert s. induction acts as [|a rest IH]; intros s.
  - apply same_settings_refl.
  - cbn [run foldl]. fold (run (step s a) rest).
    eapply same_settings_trans; [apply step_settings | apply IH].
Qed.

(** ** Settings and the compensation delay over whole runs *)

(** X1: the overhead terms the constructor guesses (system 50 ms, bulb
    100 ms, OSC 10 ms) and the configured target latency, queue capacity
    and default pulse duration are the same after every run: nothing
    re-measures or rewrites them.  The compensation delay itself is only
    ever changed by an operator command; clock ticks, incoming messages
    and dispatcher steps leave it as it is. *)
Theorem settings_never_remeasured
    (ip : string) (pulse : Q) (max_q : Z) (target t0 : Q)
    (acts : list Action) (s : System) (a : Action) :
  system_overhead (ctl (run (boot ip pulse max_q target t0) acts))
  = (50 # 1000)%Q /\
  bulb_response_time (ctl (run (boot ip pulse max_q target t0) acts))
  = (100 # 1000)%Q /\
  osc_receive_delay (ctl (run (boot ip pulse max_q target t0) acts))
  = (10 # 1000)%Q /\
  target_latency (ctl (run (boot ip pulse max_q target t0) acts)) = target /\
  max_queue_size (ctl (run (boot ip pulse max_q target t0) acts)) = max_q /\
  pulse_duration (ctl (run (boot ip pulse max_q target t0) acts)) = pulse /\
  match a with
  | Command _ => True
  | _ => intentional_delay (ctl (step s a)) = intentional_delay (ctl s)
  end.
Proof.
  destruct (run_settings acts (boot ip pulse max_q target t0))
    as (_ & H2 & H3 & H4 & _ & H6 & H7 & H8).
  rewrite H2, H3, H4, H6, H7, H8. repeat split.
  destruct a as [d|address args|cmd|ok]; cbn [step].
  - now rewrite advance_ctl.
  - apply deliver_frame.
  - exact I.
  - apply dispatcher_step_frame.
Qed.

Lemma calibrate_delay (c : Controller) :
  intentional_delay (fst (calibrate_automatically c)) = intentional_delay c \/
  exists x, intentional_delay (fst (calibrate_automatically c)) = clamp x.
Proof.
  unfold calibrate_automatically.
  destruct (_ <? _)%nat; cbn; [now left | right; eauto].
Qed.

(** Every step either keeps the delay or leaves it clamped. *)
Lemma step_delay (s : System) (a : Action) :
  intentional_delay (ctl (step s a)) = intentional_delay (ctl s) \/
  exists x, intentional_delay (ctl (step s a)) = clamp x.
Proof.
  destruct a as [d|address args|cmd|ok]; cbn [step].
  - left. now rewrite advance_ctl.
  - left. apply deliver_frame.
  - destruct (command_cases s cmd) as ([H | [(a & H) | [H | H]]] & _);
      rewrite H.
    + now left.
    + right. cbn. eexists. reflexivity.
    + apply calibrate_delay.
    + now left.
  - left. apply dispatcher_step_frame.
Qed.

Lemma run_delay (acts : list Action) (s : System) :
  intentional_delay (ctl (run s acts)) = intentional_delay (ctl s) \/
  exists x, intentional_delay (ctl (run s acts)) = clamp x.
Proof.
  revert s. induction acts as [|a rest IH]; intros s; [now left|].
  cbn [run foldl]. fold (run (step s a) rest).
  destruct (IH (step s a)) as [H | H]; [|now right].
  rewrite H. apply step_delay.
Qed.

(** X2: the compensation delay is at least 1 ms after every run,
    whatever the target latency; and when the target latency is at most
    1.15 s (so that the constructor's value does not exceed 1 s) it is
    also at most 1 s after every run, whatever commands, messages and
    dispatcher steps the run contains. *)
Theorem delay_within_bounds_in_every_run
    (ip : string) (pulse : Q) (max_q : Z) (target t0 : Q)
    (acts : list Action) :
  (minimum_delay
   <= intentional_delay (ctl (run (boot ip pulse max_q target t0) acts)))%Q
  /\ ((target <= 115 # 100)%Q ->
      (intentional_delay (ctl (run (boot ip pulse max_q target t0) acts))
       <= maximum_delay)%Q).
Proof.
  destruct (run_delay acts (boot ip pulse max_q target t0)) as [H | (x & H)];
    rewrite H.
  - cbn [boot ctl init intentional_delay].
    destruct (py_max_spec minimum_delay (target - (50 # 1000) - (100 # 1000)))
      as (H1 & H2 & [H3 | H3]); split; auto; intros Htarget;
      rewrite H3; unfold minimum_delay, maximum_delay; lra.
  - split; [|intros _]; apply clamp_bounds.
Qed.

(** ** Adjustments compose *)

(** X3: two manual adjustments in a row act like one adjustment by their
    sum, provided the delay after the first one needed no clamping; in
    particular a step up followed by the same step down restores the
    delay when both the old delay and the raised one are within
    [minimum_delay, maximum_delay]. *)
Theorem update_delay_compose (c : Controller) (a b : Q) :
  (minimum_delay <= intentional_delay c + a / 1000)%Q ->
  (intentional_delay c + a / 1000 <= maximum_delay)%Q ->
  (intentional_delay (fst (update_delay (fst (update_delay c a)) b))
   == intentional_delay (fst (update_delay c (a + b))))%Q /\
  ((minimum_delay <= intentional_delay c)%Q ->
   (intentional_delay c <= maximum_delay)%Q ->
   (intentional_delay (fst (update_delay (fst (update_delay c a)) (- a)))
    == intentional_delay c)%Q).
Proof.
  intros Hlo Hhi.
  pose proof (clamp_inside _ Hlo Hhi) as Hfirst.
  assert (Hgen : forall d,
             (intentional_delay (fst (update_delay (fst (update_delay c a)) d))
              == clamp (intentional_delay c + a / 1000 + d / 1000))%Q).
  { intros d. rewrite update_delay_value. apply clamp_proper.
    rewrite update_delay_value, Hfirst. reflexivity. }
  split.
  - rewrite Hgen, update_delay_value. apply clamp_proper. field.
  - intros Hlo' Hhi'. rewrite Hgen.
    rewrite <- (clamp_inside _ Hlo' Hhi') at 2.
    apply clamp_proper. field.
Qed.

(** A step at the upper bound is absorbed, so stepping up and down again
    from there does not come back: 1.0 s, '+', '-' ends at 0.99 s. *)
Lemma update_delay_no_round_trip_at_bound :
  (intentional_delay
     (fst (update_delay
             (fst (update_delay
                     (set_intentional_delay
                        (init "192.168.68.61" (5 # 100) 100 (250 # 1000)) 1)
                     10))
             (-10)))
   == 99 # 100)%Q.
Proof. reflexivity. Qed.

(** ** Calibrating again *)

Lemma calibrate_insufficient_data_again (c : Controller) :
  calibrate_automatically (fst (calibrate_automatically c))
  = (fst (calibrate_automatically c), [LNeedMoreData]).
Proof.
  unfold calibrate_automatically at 2 3.
  destruct (length (measured_latencies (stats c)) <? min_calibration_samples)%nat
    eqn:H.
  - cbn [fst]. unfold calibrate_automatically. now rewrite H.
  - reflexivity.
Qed.

(** X4: a second auto-calibration straight after any first one changes
    nothing and only reports that more data is needed (the first call
    either did nothing or emptied the window), and the statistics command
    prints nothing after a successful calibration until a new sample
    arrives. *)
Theorem calibrate_twice (c : Controller) :
  calibrate_automatically (fst (calibrate_automatically c))
  = (fst (calibrate_automatically c), [LNeedMoreData]) /\
  ((length (measured_latencies (stats c)) <? min_calibration_samples)%nat
   = false ->
   print_stats (fst (calibrate_automatically c)) = []).
Proof.
  split.
  - apply calibrate_insufficient_data_again.
  - intros H. unfold calibrate_automatically. rewrite H. reflexivity.
Qed.

(** X5: when the measured mean is exactly on target and the delay is
    within its bounds, auto-calibration leaves the delay where it is (it
    still empties the window); more generally an adjusted delay that needs
    no clamping is the old delay plus target minus mean. *)
Theorem calibrate_on_target_keeps_delay (c : Controller) :
  (min_calibration_samples <= length (measured_latencies (stats c)))%nat ->
  ((minimum_delay
    <= intentional_delay c + target_latency c
       - mean (measured_latencies (stats c)))%Q ->
   (intentional_delay c + target_latency c
    - mean (measured_latencies (stats c)) <= maximum_delay)%Q ->
   (intentional_delay (fst (calibrate_automatically c))
    == intentional_delay c + target_latency c
       - mean (measured_latencies (stats c)))%Q) /\
  ((mean (measured_latencies (stats c)) == target_latency c)%Q ->
   (minimum_delay <= intentional_delay c)%Q ->
   (intentional_delay c <= maximum_delay)%Q ->
   (intentional_delay (fst (calibrate_automatically c))
    == intentional_delay c)%Q).
Proof.
  intros Hn.
  assert (Hval :
    (intentional_delay (fst (calibrate_automatically c))
     == clamp (intentional_delay c + target_latency c
               - mean (measured_latencies (stats c))))%Q).
  { unfold calibrate_automatically.
    apply Nat.ltb_ge in Hn. rewrite Hn. cbn.
    fold (clamp (intentional_delay c
      + - (mean (measured_latencies (stats c)) - target_latency c) * 1000
        / 1000)).
    apply clamp_proper. field. }
  split.
  - intros Hlo Hhi. rewrite Hval. now apply clamp_inside.
  - intros Hm Hlo Hhi. rewrite Hval.
    rewrite <- (clamp_inside _ Hlo Hhi) at 2.
    apply clamp_proper. rewrite Hm. ring.
Qed.

(** ** Early, late and logged events *)

Lemma Qabs_cases (x : Q) :
  ((0 <= x)%Q /\ (Qabs x == x)%Q) \/ ((x < 0)%Q /\ (Qabs x == - x)%Q).
Proof.
  destruct (Qlt_le_dec x 0) as [H | H].
  - right. split; [exact H|]. apply Qabs_neg. lra.
  - left. split; [exact H|]. now apply Qabs_pos.
Qed.

(** How recording a sample moves the early and late counters. *)
Lemma record_latency_counts (c : Controller) (e : Event) (t : Q) :
  early_count (stats (fst (record_latency c e t)))
  + late_count (stats (fst (record_latency c e t)))
  = early_count (stats c) + late_count (stats c)
    + (if Qltb early_late_threshold
            (Qabs (t - receive_time e - target_latency c))
       then 1 else 0) /\
  early_count (stats c) <= early_count (stats (fst (record_latency c e t))) /\
  late_count (stats c) <= late_count (stats (fst (record_latency c e t))) /\
  (early_count (stats (fst (record_latency c e t))) = early_count (stats c) \/
   late_count (stats (fst (record_latency c e t))) = late_count (stats c)).
Proof.
  unfold record_latency. cbn [fst].
  set (err := (t - receive_time e - target_latency c)%Q).
  set (st := set_measured_latencies (stats c)
               (deque_append latency_window (measured_latencies (stats c))
                  (t - receive_time e)%Q)).
  change (early_count (stats c)) with (early_count st).
  change (late_count (stats c)) with (late_count st).
  cbn [stats set_stats]. unfold early_late_threshold.
  destruct (Qabs_cases err) as [[Hs Ha] | [Hs Ha]];
    case_Qltb err (- (5 # 1000))%Q;
    case_Qltb (5 # 1000)%Q err;
    case_Qltb (5 # 1000)%Q (Qabs err);
    cbn; try (exfalso; lra); repeat split; auto; lia.
Qed.

(** X6: recording a sample raises exactly one of the early and late
    counters when the latency is more than 5 ms off target and neither
    otherwise (exactly 5 ms off is not counted); it never raises both; and
    every sample that is logged as a significant error (more than 20 ms
    off) is also counted as early or late. *)
Theorem latency_classification (c : Controller) (e : Event) (t : Q) :
  early_count (stats (fst (record_latency c e t)))
  + late_count (stats (fst (record_latency c e t)))
  = early_count (stats c) + late_count (stats c)
    + (if Qltb early_late_threshold
            (Qabs (t - receive_time e - target_latency c))
       then 1 else 0) /\
  early_count (stats c) <= early_count (stats (fst (record_latency c e t))) /\
  late_count (stats c) <= late_count (stats (fst (record_latency c e t))) /\
  (early_count (stats (fst (record_latency c e t))) = early_count (stats c) \/
   late_count (stats (fst (record_latency c e t))) = late_count (stats c)) /\
  (Qltb significant_error (Qabs (t - receive_time e - target_latency c))
   = true ->
   (exists late error_ms actual_ms,
      LLatencyError late error_ms actual_ms ∈ snd (record_latency c e t)) /\
   early_count (stats (fst (record_latency c e t)))
   + late_count (stats (fst (record_latency c e t)))
   = early_count (stats c) + late_count (stats c) + 1).
Proof.
  destruct (record_latency_counts c e t) as (H1 & H2 & H3 & H4).
  split; [exact H1|]. split; [exact H2|]. split; [exact H3|].
  split; [exact H4|].
  intros Hsig. split.
  - unfold record_latency. cbn [snd]. rewrite Hsig.
    do 3 eexists. apply elem_of_app. left. constructor.
  - assert (Hthr : Qltb early_late_threshold
                     (Qabs (t - receive_time e - target_latency c)) = true).
    { apply Qltb_lt in Hsig. apply Qltb_lt.
      unfold significant_error, early_late_threshold in *. lra. }
    rewrite Hthr in H1. exact H1.
Qed.

(** ** The sound map *)

(** X7: every entry of the sound map, the default included, carries its
    own duration, so the pulse length of any sound never depends on the
    controller's [pulse_duration] setting; it is one of 80, 60, 40, 70 or
    50 ms.  A label other than 'bd', 'cp', 'hh' and 'sn', including any
    label that is not a string, gets the default mapping. *)
Theorem pulse_duration_never_used (c c' : Controller) (name : OscArg) :
  mapping_duration c (sound_map_get name)
  = mapping_duration c' (sound_map_get name) /\
  mapping_duration c (sound_map_get name)
  ∈ [(8 # 100)%Q; (6 # 100)%Q; (4 # 100)%Q; (7 # 100)%Q; (5 # 100)%Q] /\
  (name <> OStr "bd" -> name <> OStr "cp" -> name <> OStr "hh" ->
   name <> OStr "sn" -> sound_map_get name = default_mapping).
Proof.
  unfold sound_map_get.
  repeat case_match; simplify_eq; cbn;
    (split; [reflexivity|]); (split; [repeat constructor|]);
    intros; try reflexivity; congruence.
Qed.

(** ** Parsing the message arguments *)

(** A key/value list written out as alternating arguments. *)
Fixpoint flat_args (ps : list (OscArg * OscArg)) : list OscArg :=
  match ps with
  | [] => []
  | (k, v) :: rest => k :: v :: flat_args rest
  end.

Lemma arg_pairs_flat_args (ps : list (OscArg * OscArg)) (rest : list OscArg) :
  arg_pairs (flat_args ps ++ rest) = ps ++ arg_pairs rest.
Proof.
  induction ps as [|[k v] ps IH]; [reflexivity|].
  cbn. now rewrite IH.
Qed.

(** X8: the handler reads its arguments as key/value pairs: an unpaired
    trailing argument is ignored, a later 's' pair overrides every earlier
    one (so a trailing empty 's' suppresses the event), a pair with any
    other key leaves the sound as it was, and without any argument there
    is no sound. *)
Theorem sound_is_last_s_pair
    (ps : list (OscArg * OscArg)) (k v x : OscArg) (c : Controller) (now : Q)
    (address : string) :
  sound_of [] = None /\
  sound_of (flat_args ps ++ [x]) = sound_of (flat_args ps) /\
  sound_of (flat_args ps ++ [OStr "s"; v]) = Some v /\
  (k <> OStr "s" ->
   sound_of (flat_args ps ++ [k; v]) = sound_of (flat_args ps)) /\
  osc_handler c now address (flat_args ps ++ [OStr "s"; OStr ""]) = c.
Proof.
  assert (Hflat : arg_pairs (flat_args ps) = ps).
  { rewrite <- (app_nil_r (flat_args ps)), arg_pairs_flat_args.
    apply app_nil_r. }
  assert (Hpair : forall k' v',
             sound_of (flat_args ps ++ [k'; v'])
             = if py_eq k' (OStr "s") then Some v'
               else sound_of (flat_args ps)).
  { intros k' v'. rewrite !sound_of_last_pair, arg_pairs_flat_args, Hflat.
    cbn [arg_pairs]. rewrite rev_app_distr. reflexivity. }
  split; [reflexivity|]. split.
  { rewrite !sound_of_last_pair, arg_pairs_flat_args, Hflat.
    cbn [arg_pairs]. now rewrite app_nil_r. }
  split; [now rewrite Hpair|]. split.
  - intros Hk. rewrite Hpair.
    destruct (py_eq k (OStr "s")) eqn:E; [|reflexivity].
    apply py_eq_sound_key in E. contradiction.
  - unfold osc_handler, osc_event. now rewrite Hpair.
Qed.

(** ** Accounting: ids, the latency window and the counters *)

(** Events taken from the queue whose sample is not yet recorded. *)
Definition in_flight (p : Phase) : Z :=
  match p with
  | Waiting _ _ _ | Actuating _ _ => 1
  | _ => 0
  end.

(** The accounting facts, with [k] events in flight. *)
Record AccAt (s : System) (k : Z) : Prop := mkAcc {
  acc_pushed : Z.of_nat (length (pushed s)) = total (stats (ctl s));
  acc_ids :
    forall (i : nat) (e : Event),
      pushed s !! i = Some e -> event_id e = Z.of_nat i;
  acc_window :
    (length (measured_latencies (stats (ctl s))) <= latency_window)%nat;
  acc_early : 0 <= early_count (stats (ctl s));
  acc_late : 0 <= late_count (stats (ctl s));
  acc_counts :
    early_count (stats (ctl s)) + late_count (stats (ctl s)) + k
    <= Z.of_nat (length (dispatched s))
}.

Definition Accounting (s : System) : Prop := AccAt s (in_flight (phase s)).

Lemma acc_same (s s' : System) (k : Z) :
  AccAt s k -> stats (ctl s') = stats (ctl s) -> pushed s' = pushed s ->
  dispatched s' = dispatched s -> AccAt s' k.
Proof.
  intros [H1 H2 H3 H4 H5 H6] E1 E2 E3.
  constructor; rewrite ?E1, ?E2, ?E3; auto.
Qed.

Lemma acc_print (s : System) (out : list Line) (k : Z) :
  AccAt s k -> AccAt (print s out) k.
Proof. intros H. now apply (acc_same s). Qed.

Lemma acc_send (s : System) (cmd : BulbCmd) (k : Z) :
  AccAt s k -> AccAt (send s cmd) k.
Proof. intros H. now apply (acc_same s). Qed.

Lemma acc_set_phase (s : System) (p : Phase) (k : Z) :
  AccAt s k -> AccAt (set_phase s p) k.
Proof. intros H. now apply (acc_same s). Qed.

Lemma acc_setup_bulb (s : System) (ok : bool) (k : Z) :
  AccAt s k -> AccAt (setup_bulb s ok) k.
Proof.
  intros H. apply (acc_same s); auto; unfold setup_bulb; now destruct ok.
Qed.

Lemma deque_append_length {A} (n : nat) (l : list A) (x : A) :
  (length l <= n)%nat -> (length (deque_append n l x) <= n)%nat.
Proof.
  intros H. unfold deque_append.
  destruct (n <? length (l ++ [x]))%nat eqn:E.
  - destruct l; cbn in *; [lia|]. rewrite length_app. cbn. lia.
  - apply Nat.ltb_ge in E. exact E.
Qed.

Lemma acc_finish_event (s : System) (e : Event) (t : Q) :
  AccAt s 1 -> Accounting (finish_event s e t).
Proof.
  intros [H1 H2 H3 H4 H5 H6]. rewrite finish_event_eq.
  unfold Accounting. cbn [phase set_phase in_flight].
  destruct (record_latency_counts (ctl s) e t) as (C1 & C2 & C3 & _).
  destruct (record_latency_frame (ctl s) e t) as (F1 & _ & _ & _ & _ & _ & F7).
  constructor; cbn [ctl pushed dispatched set_phase print set_ctl];
    rewrite ?F1, ?F7; auto; try lia.
  - now apply deque_append_length.
  - rewrite Z.add_0_r, C1. destruct (Qltb _ _); lia.
Qed.

Lemma acc_begin_actuation (s : System) (e : Event) (ok : bool) :
  AccAt s 1 -> Accounting (begin_actuation s e ok).
Proof.
  intros H. unfold begin_actuation.
  assert (H1 : AccAt (if bulb (ctl s) then s else setup_bulb s ok) 1)
    by (destruct (bulb (ctl s)); auto using acc_setup_bulb).
  destruct ok.
  - unfold Accounting. cbn [phase set_phase in_flight].
    now apply acc_set_phase, acc_send.
  - now apply acc_finish_event, acc_print.
Qed.

Lemma acc_dispatcher_step (s : System) (ok : bool) :
  Accounting s -> Accounting (dispatcher_step s ok).
Proof.
  unfold Accounting at 1. intros H. unfold dispatcher_step.
  destruct (phase s) as [| |t0|e st w|e t|st|] eqn:Hph; cbn [in_flight] in H.
  - unfold Accounting. cbn [phase set_phase in_flight].
    now apply acc_set_phase, acc_print, acc_setup_bulb.
  - destruct (running (ctl s)); unfold Accounting;
      cbn [phase set_phase in_flight]; now apply acc_set_phase.
  - unfold get_nowait.
    destruct (items (event_queue (ctl s))) as [|e rest] eqn:Hq.
    + destruct (Qle_bool _ _).
      * unfold Accounting. cbn [phase set_phase in_flight].
        now apply acc_set_phase.
      * unfold Accounting. now rewrite Hph.
    + assert (H' : AccAt
                (mkSystem
                   (set_event_queue (ctl s)
                      (mkQueue (maxsize (event_queue (ctl s))) rest))
                   (clock s) (Polling t0) (console s) (bulb_log s)
                   (pushed s) (dispatched s ++ [e])) 1).
      { destruct H as [H1 H2 H3 H4 H5 H6]. constructor; cbn; auto.
        rewrite length_app. cbn. lia. }
      destruct (Qltb 0 _).
      * unfold Accounting. cbn [phase set_phase in_flight].
        now apply acc_set_phase.
      * now apply acc_begin_actuation.
  - destruct (Qle_bool _ _).
    + now apply acc_begin_actuation.
    + unfold Accounting. now rewrite Hph.
  - destruct (Qle_bool _ _).
    + apply acc_finish_event. destruct ok; auto using acc_send, acc_print.
    + unfold Accounting. now rewrite Hph.
  - destruct (Qle_bool _ _).
    + unfold Accounting. cbn [phase set_phase in_flight].
      now apply acc_set_phase.
    + unfold Accounting. now rewrite Hph.
  - unfold Accounting. now rewrite Hph.
Qed.

Lemma acc_command (s : System) (cmd : string) :
  Accounting s -> Accounting (command s cmd).
Proof.
  unfold Accounting. intros [H1 H2 H3 H4 H5 H6].
  destruct (command_cases s cmd) as (Hc & _ & Hp & Hu & Hd).
  rewrite Hp.
  assert (Hst :
    stats (ctl (command s cmd)) = stats (ctl s) \/
    (total (stats (ctl (command s cmd))) = total (stats (ctl s)) /\
     measured_latencies (stats (ctl (command s cmd))) = [] /\
     early_count (stats (ctl (command s cmd))) = 0 /\
     late_count (stats (ctl (command s cmd))) = 0)).
  { destruct Hc as [Hc | [(a & Hc) | [Hc | Hc]]]; rewrite Hc; auto.
    unfold calibrate_automatically.
    destruct (_ <? _)%nat; cbn; auto. }
  destruct Hst as [Hst | (T & M & E & L)].
  - constructor; rewrite ?Hst, ?Hu, ?Hd; auto.
  - constructor; rewrite ?T, ?M, ?E, ?L, ?Hu, ?Hd; auto; cbn; lia.
Qed.

(** With the queue within its capacity the handler always stores the
    event. *)
Lemma enqueue_event_stores (s : System) (e : Event) :
  Inv s -> snd (enqueue_event (event_queue (ctl s)) e) = true.
Proof.
  intros HI.
  destruct (Z.ltb_spec 0 (maxsize (event_queue (ctl s)))) as [Hpos | Hle].
  - apply enqueue_event_bounded; [exact Hpos|].
    rewrite (inv_maxsize s HI) in *. now apply (inv_bound s HI).
  - unfold enqueue_event, put_nowait, full.
    assert (E : (0 <? maxsize (event_queue (ctl s))) = false)
      by (apply Z.ltb_ge; lia).
    now rewrite E.
Qed.

Lemma acc_deliver (s : System) (address : string) (args : list OscArg) :
  Inv s -> Accounting s -> Accounting (deliver s address args).
Proof.
  unfold Accounting. intros HI [H1 H2 H3 H4 H5 H6].
  unfold deliver, osc_handler. cbn [phase].
  destruct (osc_event (ctl s) (clock s) args) as [e|] eqn:Hev.
  - rewrite (enqueue_event_stores s e HI).
    assert (Hid : event_id e = total (stats (ctl s))).
    { unfold osc_event in Hev. destruct (sound_of args); [|discriminate].
      destruct (truthy o); [|discriminate]. now inversion Hev. }
    constructor; cbn; auto.
    + rewrite length_app. cbn. lia.
    + intros i e' Hi. apply lookup_app_Some in Hi as [Hi | [Hge Hi]].
      * now apply H2.
      * apply list_lookup_singleton_Some in Hi as [Hi <-]. lia.
  - constructor; cbn; rewrite ?app_nil_r; auto.
Qed.

Lemma acc_step (s : System) (a : Action) :
  Inv s -> Accounting s -> Accounting (step s a).
Proof.
  intros HI H. destruct a as [d|address args|cmd|ok]; cbn [step].
  - unfold advance. destruct (Qle_bool 0 d); [|exact H].
    unfold Accounting in *. now apply (acc_same s).
  - now apply acc_deliver.
  - now apply acc_command.
  - now apply acc_dispatcher_step.
Qed.

Lemma acc_run (acts : list Action) (s : System) :
  Inv s -> Accounting s -> Accounting (run s acts).
Proof.
  revert s. induction acts as [|a rest IH]; intros s HI H; [exact H|].
  cbn [run foldl]. apply IH; [now apply inv_step | now apply acc_step].
Qed.

Lemma acc_boot (ip : string) (pulse : Q) (max_q : Z) (target t0 : Q) :
  Accounting (boot ip pulse max_q target t0).
Proof.
  constructor; cbn; try (unfold latency_window; lia); try reflexivity.
  intros i e H. now rewrite lookup_nil in H.
Qed.

Lemma reachable_inv_acc
    (ip : string) (pulse : Q) (max_q : Z) (target t0 : Q)
    (acts : list Action) :
  Inv (run (boot ip pulse max_q target t0) acts) /\
  Accounting (run (boot ip pulse max_q target t0) acts).
Proof.
  split.
  - apply inv_run, inv_boot.
  - apply acc_run; [apply inv_boot | apply acc_boot].
Qed.


(** X10: the latency window never holds more than 1000 samples, in any
    run; a sample recorded into a full window pushes the oldest one out
    and goes to the end. *)
Theorem latency_window_bounded
    (ip : string) (pulse : Q) (max_q : Z) (target t0 : Q)
    (acts : list Action) (c : Controller) (e : Event) (t : Q) :
  (length (measured_latencies
             (stats (ctl (run (boot ip pulse max_q target t0) acts))))
   <= 1000)%nat /\
  (length (measured_latencies (stats c)) = 1000%nat ->
   measured_latencies (stats (fst (record_latency c e t)))
   = tail (measured_latencies (stats c)) ++ [(t - receive_time e)%Q]) /\
  ((length (measured_latencies (stats c)) < 1000)%nat ->
   measured_latencies (stats (fst (record_latency c e t)))
   = measured_latencies (stats c) ++ [(t - receive_time e)%Q]).
Proof.
  destruct (reachable_inv_acc ip pulse max_q target t0 acts) as [_ HA].
  split; [apply (acc_window _ _ HA)|].
  destruct (record_latency_frame c e t) as (_ & _ & _ & _ & _ & _ & F7).
  rewrite F7. unfold deque_append, latency_window.
  split; intros Hlen.
  - assert (E : (1000 <? length (measured_latencies (stats c)
                                  ++ [(t - receive_time e)%Q]))%nat = true).
    { apply Nat.ltb_lt. rewrite length_app. cbn. lia. }
    rewrite E. destruct (measured_latencies (stats c)); [discriminate|].
    reflexivity.
  - assert (E : (1000 <? length (measured_latencies (stats c)
                                  ++ [(t - receive_time e)%Q]))%nat = false).
    { apply Nat.ltb_ge. rewrite length_app. cbn. lia. }
    now rewrite E.
Qed.



(** ** After shutdown *)

(** The dispatcher has seen [running = False] or is about to. *)
Definition halted (s : System) : Prop :=
  running (ctl s) = false /\ (phase s = Idle \/ phase s = Stopped).

Lemma halted_step (s : System) (a : Action) :
  halted s ->
  halted (step s a) /\
  dispatched (step s a) = dispatched s /\
  bulb_log (step s a) = bulb_log s /\
  measured_latencies (stats (ctl (step s a)))
  = measured_latencies (stats (ctl s)) /\
  intentional_delay (ctl (step s a)) = intentional_delay (ctl s).
Proof.
  intros [Hrun Hph]. unfold halted.
  destruct a as [d|address args|cmd|ok]; cbn [step].
  - unfold advance. destruct (Qle_bool 0 d); cbn; rewrite ?Hrun;
      repeat split; auto.
  - destruct (deliver_frame s address args)
      as (_ & F2 & F3 & _ & F5 & _ & _ & _ & F9 & _ & F11 & F12).
    rewrite F2, F3, F5, F9, F11, F12. repeat split; auto.
  - unfold command. rewrite Hrun. cbn. repeat split; auto.
  - unfold dispatcher_step.
    destruct Hph as [Hph | Hph]; rewrite Hph, ?Hrun; cbn;
      repeat split; auto.
Qed.

(** X12: once [running] is false and the dispatcher is at its loop head
    (or has left the loop), nothing is ever dispatched again: whatever
    follows, no event is taken from the queue, no command is sent to the
    bulb, no sample is recorded, operator commands no longer move the
    delay, and [running] stays false; incoming messages are still counted
    and queued. *)
Theorem nothing_dispatched_after_stop (s : System) (acts : list Action) :
  running (ctl s) = false ->
  phase s = Idle \/ phase s = Stopped ->
  running (ctl (run s acts)) = false /\
  dispatched (run s acts) = dispatched s /\
  bulb_log (run s acts) = bulb_log s /\
  measured_latencies (stats (ctl (run s acts)))
  = measured_latencies (stats (ctl s)) /\
  intentional_delay (ctl (run s acts)) = intentional_delay (ctl s) /\
  total (stats (ctl (run s acts)))
  = total (stats (ctl s)) + Z.of_nat (submissions acts).
Proof.
  intros Hrun Hph.
  assert (H : halted s) by (split; assumption).
  clear Hrun Hph.
  assert (Hall : halted (run s acts) /\
                 dispatched (run s acts) = dispatched s /\
                 bulb_log (run s acts) = bulb_log s /\
                 measured_latencies (stats (ctl (run s acts)))
                 = measured_latencies (stats (ctl s)) /\
                 intentional_delay (ctl (run s acts))
                 = intentional_delay (ctl s)).
  { revert s H. induction acts as [|a rest IH]; intros s H; [now auto|].
    cbn [run foldl]. fold (run (step s a) rest).
    destruct (halted_step s a H) as (H' & Hd & Hb & Hs & Hi).
    destruct (IH _ H') as (G & Gd & Gb & Gs & Gi).
    rewrite Gd, Gb, Gs, Gi. auto. }
  destruct Hall as ((G & _) & Gd & Gb & Gs & Gi).
  repeat split; auto. apply run_total.
Qed.

(** ** Pulses do not overlap *)

Definition is_on (cmd : BulbCmd) : bool :=
  match cmd with
  | TurnOn _ _ => true
  | TurnOff => false
  end.

Definition head_is_on (log : list BulbCmd) : bool :=
  match log with
  | cmd :: _ => is_on cmd
  | [] => false
  end.

(** No switch-on is directly followed by another switch-on. *)
Fixpoint no_double_on (log : list BulbCmd) : bool :=
  match log with
  | [] => true
  | cmd :: rest => negb (is_on cmd && head_is_on rest) && no_double_on rest
  end.

(** The newest command in the log is a switch-on. *)
Definition last_is_on (log : list BulbCmd) : bool :=
  match last log with
  | Some cmd => is_on cmd
  | None => false
  end.

(** Every resumption of the dispatcher finds the bulb answering. *)
Definition bulb_always_answers (acts : list Action) : bool :=
  forallb (fun a => match a with Dispatch ok => ok | _ => true end) acts.

Lemma last_is_on_snoc (log : list BulbCmd) (cmd : BulbCmd) :
  last_is_on (log ++ [cmd]) = is_on cmd.
Proof. unfold last_is_on. now rewrite last_snoc. Qed.

Lemma no_double_on_snoc (log : list BulbCmd) (cmd : BulbCmd) :
  no_double_on (log ++ [cmd])
  = no_double_on log && negb (last_is_on log && is_on cmd).
Proof.
  induction log as [|a log IH]; [cbn; now destruct (is_on cmd)|].
  cbn [app no_double_on]. rewrite IH.
  destruct log as [|b log].
  - cbn. destruct (is_on a), (is_on cmd); reflexivity.
  - assert (Hl : last_is_on (a :: b :: log) = last_is_on (b :: log))
      by reflexivity.
    rewrite Hl. cbn [app head_is_on].
    destruct (is_on a), (is_on b), (no_double_on (b :: log)),
      (last_is_on (b :: log)), (is_on cmd); reflexivity.
Qed.

(** The bulb log is well formed, and the bulb is only left switched on
    while an actuation is under way. *)
Definition pulsing (s : System) : Prop :=
  no_double_on (bulb_log s) = true /\
  match phase s with
  | Actuating _ _ => True
  | _ => last_is_on (bulb_log s) = false
  end.

Lemma pulsing_off (s : System) :
  no_double_on (bulb_log s) = true ->
  no_double_on (bulb_log (send s TurnOff)) = true /\
  last_is_on (bulb_log (send s TurnOff)) = false.
Proof.
  intros H. cbn [send bulb_log].
  rewrite no_double_on_snoc, last_is_on_snoc, H. cbn.
  now rewrite andb_false_r.
Qed.

Lemma pulsing_begin (s : System) (e : Event) :
  no_double_on (bulb_log s) = true -> last_is_on (bulb_log s) = false ->
  pulsing (begin_actuation s e true).
Proof.
  intros Hn Hl. unfold begin_actuation, pulsing.
  cbn [phase set_phase bulb_log send].
  split; [|exact I].
  rewrite no_double_on_snoc.
  destruct (bulb (ctl s)).
  - now rewrite Hn, Hl.
  - unfold setup_bulb. cbn [print send bulb_log set_ctl].
    rewrite no_double_on_snoc, last_is_on_snoc, Hn. cbn.
    now rewrite andb_false_r.
Qed.

Lemma pulsing_dispatcher_step (s : System) :
  pulsing s -> pulsing (dispatcher_step s true).
Proof.
  intros [Hn Hl]. unfold dispatcher_step.
  destruct (phase s) as [| |t0|e st w|e t|st|] eqn:Hph.
  - unfold setup_bulb, pulsing. cbn.
    rewrite no_double_on_snoc, last_is_on_snoc, Hn. cbn.
    now rewrite andb_false_r.
  - destruct (running (ctl s)); split; assumption.
  - unfold get_nowait. destruct (items _) as [|e rest].
    + destruct (Qle_bool _ _); unfold pulsing; cbn; rewrite ?Hph; auto.
    + destruct (Qltb 0 _).
      * split; assumption.
      * now apply pulsing_begin.
  - destruct (Qle_bool _ _).
    + now apply pulsing_begin.
    + unfold pulsing. rewrite Hph. auto.
  - destruct (Qle_bool _ _).
    + rewrite finish_event_eq. unfold pulsing.
      cbn [phase set_phase bulb_log print set_ctl].
      now apply pulsing_off.
    + unfold pulsing. rewrite Hph. auto.
  - destruct (Qle_bool _ _); unfold pulsing; cbn; rewrite ?Hph; auto.
  - unfold pulsing. rewrite Hph. auto.
Qed.

Lemma pulsing_command (s : System) (cmd : string) :
  pulsing s -> pulsing (command s cmd).
Proof.
  intros [Hn Hl]. unfold pulsing.
  destruct (command_cases s cmd) as (_ & _ & Hp & _ & _). rewrite Hp.
  assert (Hlog : bulb_log (command s cmd) = bulb_log s \/
                 bulb_log (command s cmd) = bulb_log s ++ [TurnOff]).
  { unfold command.
    destruct (negb _); [now left|].
    repeat (destruct (String.eqb cmd _); [cbn; now left|]).
    destruct (String.eqb cmd "c").
    { destruct (calibrate_automatically (ctl s)). now left. }
    destruct (String.eqb cmd "q"); [|now left].
    unfold shutdown. cbn. destruct (bulb (ctl s)); cbn; auto. }
  destruct Hlog as [-> | ->]; [split; assumption|].
  rewrite no_double_on_snoc, last_is_on_snoc, Hn. cbn.
  rewrite andb_false_r. split; [reflexivity|].
  now destruct (phase s).
Qed.

Lemma pulsing_run (acts : list Action) (s : System) :
  bulb_always_answers acts = true -> pulsing s -> pulsing (run s acts).
Proof.
  revert s. induction acts as [|a rest IH]; intros s Hok H; [exact H|].
  cbn [bulb_always_answers forallb] in Hok.
  apply andb_true_iff in Hok as [Ha Hrest].
  cbn [run foldl]. apply IH; [exact Hrest|].
  destruct a as [d|address args|cmd|ok]; cbn [step].
  - unfold advance. destruct (Qle_bool 0 d); exact H.
  - destruct (deliver_frame s address args)
      as (_ & _ & _ & _ & _ & _ & _ & _ & F9 & _ & F11 & _).
    unfold pulsing. now rewrite F9, F11.
  - now apply pulsing_command.
  - subst ok. now apply pulsing_dispatcher_step.
Qed.

(** X13: as long as the bulb answers every command, the commands sent to
    it never contain two switch-ons in a row, and whenever the dispatcher
    is not in the middle of an actuation the last command sent is not a
    switch-on: pulses never overlap and the bulb is not left on between
    events. *)
Theorem pulses_never_overlap
    (ip : string) (pulse : Q) (max_q : Z) (target t0 : Q)
    (acts : list Action) :
  bulb_always_answers acts = true ->
  no_double_on (bulb_log (run (boot ip pulse max_q target t0) acts)) = true /\
  match phase (run (boot ip pulse max_q target t0) acts) with
  | Actuating _ _ => True
  | _ => last_is_on (bulb_log (run (boot ip pulse max_q target t0) acts))
         = false
  end.
Proof.
  intros Hok. apply pulsing_run; [exact Hok|].
  split; reflexivity.
Qed.

(** * The sample browser (test.py)

    The parts of [AudioBrowser] that do not touch pygame or the file
    system: the flattened view of the folder tree, collapsing, lookup by
    path, scrolling, and the mapping between mouse positions and rows. *)

Module Browser.

(** ** Layout constants *)

Definition SCREEN_WIDTH : Z := 1200.
Definition SCREEN_HEIGHT : Z := 800.
Definition SIDEBAR_WIDTH : Z := 300.
Definition FILE_LIST_HEIGHT : Z := 600.
Definition ITEM_HEIGHT : Z := 30.
Definition INDENT_SIZE : Z := 20.

(** Top of the list area, the literal 50 of the source. *)
Definition LIST_TOP : Z := 50.

(** [self.max_visible_items = (SCREEN_HEIGHT - 50) // ITEM_HEIGHT]. *)
Definition max_visible_items : Z := (SCREEN_HEIGHT - LIST_TOP) / ITEM_HEIGHT.

(** ** The folder tree

    A [FileItem] with its children; the [parent] back pointer is not
    represented. *)
#[warnings="-register-all"]
Inductive FileItem :=
| mkFileItem (name path : string) (is_dir : bool) (depth : Z)
             (children : list FileItem) (expanded loaded : bool).

Definition name (i : FileItem) : string :=
  match i with mkFileItem n _ _ _ _ _ _ => n end.
Definition path (i : FileItem) : string :=
  match i with mkFileItem _ p _ _ _ _ _ => p end.
Definition is_dir (i : FileItem) : bool :=
  match i with mkFileItem _ _ d _ _ _ _ => d end.
Definition depth (i : FileItem) : Z :=
  match i with mkFileItem _ _ _ d _ _ _ => d end.
Definition children (i : FileItem) : list FileItem :=
  match i with mkFileItem _ _ _ _ c _ _ => c end.
Definition expanded (i : FileItem) : bool :=
  match i with mkFileItem _ _ _ _ _ e _ => e end.
Definition loaded (i : FileItem) : bool :=
  match i with mkFileItem _ _ _ _ _ _ l => l end.

Definition set_expanded (i : FileItem) (v : bool) : FileItem :=
  mkFileItem (name i) (path i) (is_dir i) (depth i) (children i) v (loaded i).

(** [get_flat_items] (lines 86-99): the item, then, for an expanded
    folder, the flattened children in order. *)
Fixpoint get_flat_items (item : FileItem) : list FileItem :=
  item ::
  match item with
  | mkFileItem _ _ d _ ch ex _ =>
      if d && ex
      then (fix each (l : list FileItem) : list FileItem :=
              match l with
              | [] => []
              | child :: rest => get_flat_items child ++ each rest
              end) ch
      else []
  end.

(** [collapse_all] of the Escape key (lines 314-319): the item is
    collapsed, and so is every child that is a folder, recursively. *)
Fixpoint collapse_all (item : FileItem) : FileItem :=
  match item with
  | mkFileItem n p d dp ch _ ld =>
      mkFileItem n p d dp
        ((fix each (l : list FileItem) : list FileItem :=
            match l with
            | [] => []
            | child :: rest =>
                (if is_dir child then collapse_all child else child)
                :: each rest
            end) ch)
        false ld
  end.

(** [find_item_by_path] (lines 101-113) on one item and then on the rest
    of the list it stands in. *)
Fixpoint find_in (p : string) (item : FileItem) : option FileItem :=
  if String.eqb (path item) p then Some item
  else
    match item with
    | mkFileItem _ _ d _ ch _ _ =>
        if d && negb (match ch with [] => true | _ => false end)
        then (fix each (l : list FileItem) : option FileItem :=
                match l with
                | [] => None
                | child :: rest =>
                    match find_in p child with
                    | Some found => Some found
                    | None => each rest
                    end
                end) ch
        else None
    end.

Fixpoint find_item_by_path (p : string) (items : list FileItem)
  : option FileItem :=
  match items with
  | [] => None
  | item :: rest =>
      match find_in p item with
      | Some found => Some found
      | None => find_item_by_path p rest
      end
  end.

(** Everything below an item that the search can reach: the item and,
    for a folder, what is below its children. *)
Fixpoint below (item : FileItem) : list FileItem :=
  item ::
  match item with
  | mkFileItem _ _ d _ ch _ _ =>
      if d
      then (fix each (l : list FileItem) : list FileItem :=
              match l with
              | [] => []
              | child :: rest => below child ++ each rest
              end) ch
      else []
  end.

(** ** Scrolling and the mouse *)

(** [handle_mouse_scroll] (lines 276-285); [y] is [event.y]. *)
Definition handle_mouse_scroll (total_items scroll_offset y : Z) : Z :=
  let max_scroll := Z.max 0 (total_items - max_visible_items) in
  if 0 <? y then Z.max 0 (scroll_offset - 3)
  else if y <? 0 then Z.min max_scroll (scroll_offset + 3)
  else scroll_offset.

(** [ensure_visible] (lines 287-294); [len] is [len(flat_items)]. *)
Definition ensure_visible (len scroll_offset item_index : Z) : Z :=
  if item_index <? scroll_offset then Z.max 0 item_index
  else if scroll_offset + max_visible_items <=? item_index
       then Z.min (len - max_visible_items)
              (item_index - max_visible_items + 1)
       else scroll_offset.

(** The arrow keys with a selection at [current_idx] (lines 322-340):
    the new selection and the new scroll offset. *)
Definition key_up (len scroll_offset current_idx : Z) : Z * Z :=
  let new_idx := Z.max 0 (current_idx - 1) in
  (new_idx, ensure_visible len scroll_offset new_idx).

Definition key_down (len scroll_offset current_idx : Z) : Z * Z :=
  let new_idx := Z.min (len - 1) (current_idx + 1) in
  (new_idx, ensure_visible len scroll_offset new_idx).

(** Where [draw_file_list] puts row [i] (lines 231-267): the first
    visible row starts at 50 and every row is [ITEM_HEIGHT] high. *)
Definition row_top (scroll_offset i : Z) : Z :=
  LIST_TOP + (i - scroll_offset) * ITEM_HEIGHT.

(** The row a left click lands on (lines 356-368), if any. *)
Definition clicked_index (len scroll_offset mouse_x mouse_y : Z)
  : option Z :=
  if (SIDEBAR_WIDTH <? mouse_x) && (mouse_x <? SCREEN_WIDTH - 20)
     && (LIST_TOP <? mouse_y) && (mouse_y <? SCREEN_HEIGHT)
  then
    let item_index := scroll_offset + (mouse_y - LIST_TOP) / ITEM_HEIGHT in
    if item_index <? len then Some item_index else None
  else None.

(** The thumb of [draw_scrollbar] (lines 186-209): its offset below the
    top of the track and its height, in pixels. *)
Definition scrollbar_thumb (total_items scroll_offset : Z) : Q * Q :=
  let visible_ratio := py_min 1 (Zq max_visible_items / Zq total_items) in
  let thumb_height := py_max 30 (Zq FILE_LIST_HEIGHT * visible_ratio) in
  let max_scroll := Z.max 0 (total_items - max_visible_items) in
  let thumb_position :=
    if 0 <? max_scroll
    then (Zq scroll_offset / Zq max_scroll
          * (Zq FILE_LIST_HEIGHT - thumb_height))%Q
    else 0%Q in
  (thumb_position, thumb_height).

(** ** Induction over the folder tree *)

Section Tree_induction.
Variable P : FileItem -> Prop.
Hypothesis step_item :
  forall n p d dp ch ex ld,
    Forall P ch -> P (mkFileItem n p d dp ch ex ld).

Fixpoint FileItem_tree_ind (item : FileItem) : P item :=
  match item with
  | mkFileItem n p d dp ch ex ld =>
      step_item n p d dp ch ex ld
        ((fix each (l : list FileItem) : Forall P l :=
            match l with
            | [] => @List.Forall_nil _ P
            | child :: rest =>
                @List.Forall_cons _ P child rest (FileItem_tree_ind child)
                  (each rest)
            end) ch)
  end.
End Tree_induction.

(** The local loops of the definitions above, named. *)
Definition flat_each (l : list FileItem) : list FileItem :=
  concat (map get_flat_items l).

Definition below_each (l : list FileItem) : list FileItem :=
  concat (map below l).

Definition collapse_child (child : FileItem) : FileItem :=
  if is_dir child then collapse_all child else child.

Lemma get_flat_items_eq (i : FileItem) :
  get_flat_items i
  = i :: (if is_dir i && expanded i then flat_each (children i) else []).
Proof.
  destruct i as [n p d dp ch ex ld]. cbn [get_flat_items is_dir expanded
    children]. f_equal. destruct (d && ex); [|reflexivity].
  unfold flat_each. induction ch as [|c r IH]; [reflexivity|].
  cbn. now rewrite IH.
Qed.

Lemma below_eq (i : FileItem) :
  below i = i :: (if is_dir i then below_each (children i) else []).
Proof.
  destruct i as [n p d dp ch ex ld]. cbn [below is_dir children]. f_equal.
  destruct d; [|reflexivity].
  unfold below_each. induction ch as [|c r IH]; [reflexivity|].
  cbn. now rewrite IH.
Qed.

Lemma collapse_all_eq (i : FileItem) :
  collapse_all i
  = mkFileItem (name i) (path i) (is_dir i) (depth i)
      (map collapse_child (children i)) false (loaded i).
Proof.
  destruct i as [n p d dp ch ex ld]. reflexivity.
Qed.

Lemma find_in_eq (p : string) (i : FileItem) :
  find_in p i
  = if String.eqb (path i) p then Some i
    else if is_dir i then find_item_by_path p (children i) else None.
Proof.
  assert (Heach : forall l,
             (fix each (l : list FileItem) : option FileItem :=
                match l with
                | [] => None
                | child :: rest =>
                    match find_in p child with
                    | Some found => Some found
                    | None => each rest
                    end
                end) l = find_item_by_path p l).
  { induction l as [|c r IH]; [reflexivity|].
    cbn [find_item_by_path]. now rewrite IH. }
  destruct i as [n q d dp ch ex ld].
  cbn [find_in path is_dir children].
  destruct (String.eqb q p); [reflexivity|].
  destruct d; cbn [andb]; [|reflexivity].
  destruct ch as [|c r]; [reflexivity|]. exact (Heach (c :: r)).
Qed.
(** ** The flattened view and collapsing *)

Lemma Forall_concat_map {A B} (P : B -> Prop) (f : A -> list B) (l : list A) :
  Forall (fun x => Forall P (f x)) l -> Forall P (concat (map f l)).
Proof.
  induction 1 as [|x l Hx Hl IH]; cbn; [constructor|].
  apply Forall_app. auto.
Qed.

Lemma collapsed_child_alone (c : FileItem) :
  get_flat_items (collapse_child c) = [collapse_child c].
Proof.
  unfold collapse_child. destruct (is_dir c) eqn:Hd.
  - rewrite get_flat_items_eq, collapse_all_eq. cbn.
    now rewrite andb_false_r.
  - rewrite get_flat_items_eq, Hd. reflexivity.
Qed.

Lemma below_collapsed (root : FileItem) :
  Forall (fun i => is_dir i = true -> expanded i = false)
    (below (collapse_all root)) /\
  map path (below (collapse_all root)) = map path (below root).
Proof.
  induction root as [n p d dp ch ex ld IH] using FileItem_tree_ind.
  rewrite collapse_all_eq, !below_eq. cbn [is_dir children name path depth
    loaded].
  assert (Hch :
    Forall (fun i => is_dir i = true -> expanded i = false)
      (below_each (map collapse_child ch)) /\
    map path (below_each (map collapse_child ch))
    = map path (below_each ch)).
  { unfold below_each. induction IH as [|c r [Hc1 Hc2] Hr [IH1 IH2]];
      [split; [constructor | reflexivity]|].
    assert (Hc : Forall (fun i => is_dir i = true -> expanded i = false)
                   (below (collapse_child c)) /\
                 map path (below (collapse_child c)) = map path (below c)).
    { unfold collapse_child. destruct (is_dir c) eqn:Hd; [now split|].
      split; [|reflexivity]. rewrite below_eq, Hd.
      constructor; [congruence | constructor]. }
    destruct Hc as [Hc3 Hc4]. cbn [map concat]. split.
    - apply Forall_app. auto.
    - rewrite !map_app. congruence. }
  destruct Hch as [H1 H2]. split.
  - constructor; [reflexivity|]. destruct d; [exact H1 | constructor].
  - cbn [map path]. f_equal. destruct d; [exact H2 | reflexivity].
Qed.

(** X14: after Escape ([collapse_all] on the root) the list shows the
    root alone; no folder that can be reached through folders is left
    expanded, while the tree keeps all its entries in place; and opening
    the root again shows exactly the root followed by its direct
    children, none of them expanded. *)
Theorem escape_collapses_everything (root : FileItem) :
  get_flat_items (collapse_all root) = [collapse_all root] /\
  Forall (fun i => is_dir i = true -> expanded i = false)
    (below (collapse_all root)) /\
  map path (below (collapse_all root)) = map path (below root) /\
  (is_dir root = true ->
   get_flat_items (set_expanded (collapse_all root) true)
   = set_expanded (collapse_all root) true :: children (collapse_all root)).
Proof.
  destruct (below_collapsed root) as [H1 H2].
  split; [|split; [exact H1 | split; [exact H2|]]].
  - rewrite get_flat_items_eq, collapse_all_eq. cbn.
    now rewrite andb_false_r.
  - intros Hd. rewrite get_flat_items_eq, collapse_all_eq. cbn.
    rewrite Hd. cbn. f_equal. unfold flat_each.
    induction (children root) as [|c r IH]; [reflexivity|].
    cbn [map concat]. rewrite collapsed_child_alone, IH. reflexivity.
Qed.

Lemma flat_sublist_below (item : FileItem) :
  get_flat_items item `sublist_of` below item.
Proof.
  induction item as [n p d dp ch ex ld IH] using FileItem_tree_ind.
  rewrite get_flat_items_eq, below_eq. cbn [is_dir expanded children].
  apply sublist_skip.
  destruct d; cbn [andb]; [|constructor].
  destruct ex; [|apply sublist_nil_l].
  unfold flat_each, below_each.
  induction IH as [|c r Hc Hr IHr]; [constructor|].
  cbn [map concat]. now apply sublist_app.
Qed.

(** X15: the rows shown are never empty, start with the root, and are a
    subsequence, in the same order, of the full depth-first listing of
    the tree; an item that is a file or a collapsed folder contributes
    itself only. *)
Theorem visible_rows_follow_the_tree (root : FileItem) :
  head (get_flat_items root) = Some root /\
  get_flat_items root `sublist_of` below root /\
  (length (get_flat_items root) <= length (below root))%nat /\
  (is_dir root && expanded root = false -> get_flat_items root = [root]).
Proof.
  split; [now rewrite get_flat_items_eq|].
  split; [apply flat_sublist_below|].
  split; [apply sublist_length, flat_sublist_below|].
  intros H. now rewrite get_flat_items_eq, H.
Qed.

(** ** Lookup by path *)

Definition has_path (p : string) (i : FileItem) : bool :=
  String.eqb (path i) p.

Lemma head_filter_app {A} (f : A -> bool) (l1 l2 : list A) :
  head (List.filter f (l1 ++ l2))
  = match head (List.filter f l1) with
    | Some x => Some x
    | None => head (List.filter f l2)
    end.
Proof.
  rewrite List.filter_app. now destruct (List.filter f l1).
Qed.

Lemma find_in_first_match (p : string) (item : FileItem) :
  find_in p item = head (List.filter (has_path p) (below item)).
Proof.
  induction item as [n q d dp ch ex ld IH] using FileItem_tree_ind.
  rewrite find_in_eq, below_eq. cbn [path is_dir children List.filter].
  unfold has_path at 1. cbn [path].
  destruct (String.eqb q p); [reflexivity|].
  destruct d; [|reflexivity].
  unfold below_each.
  induction IH as [|c r Hc Hr IHr]; [reflexivity|].
  cbn [find_item_by_path map concat].
  rewrite head_filter_app, <- Hc, IHr. reflexivity.
Qed.

(** X16: [find_item_by_path] returns the first item, in depth-first
    order through the folders, whose path is the one asked for; so a
    result has that path and is in the tree, the answer is [None] exactly
    when no reachable item has the path, and looking up the root's own
    path returns the root. *)
Theorem find_item_by_path_first_match (p : string) (root : FileItem) :
  find_item_by_path p [root]
  = head (List.filter (has_path p) (below root)) /\
  (forall found,
     find_item_by_path p [root] = Some found ->
     path found = p /\ found ∈ below root) /\
  (find_item_by_path p [root] = None <->
   Forall (fun i => path i <> p) (below root)) /\
  find_item_by_path (path root) [root] = Some root.
Proof.
  assert (Heq : find_item_by_path p [root]
                = head (List.filter (has_path p) (below root))).
  { cbn [find_item_by_path]. rewrite find_in_first_match.
    now destruct (head _). }
  split; [exact Heq|]. split; [|split].
  - intros found Hf. rewrite Heq in Hf.
    assert (Hin : In found (List.filter (has_path p) (below root))).
    { destruct (List.filter _ _); [discriminate|].
      cbn in Hf. inversion Hf. now left. }
    apply List.filter_In in Hin as [Hin Hp].
    split; [now apply String.eqb_eq | now apply list_elem_of_In].
  - rewrite Heq. split.
    + intros Hnone. apply Forall_forall. intros i Hi Hp.
      assert (Hin : In i (List.filter (has_path p) (below root))).
      { apply List.filter_In. split; [now apply list_elem_of_In|].
        now apply String.eqb_eq. }
      destruct (List.filter _ _); [contradiction | discriminate].
    + intros Hall.
      destruct (List.filter (has_path p) (below root)) as [|i l] eqn:E;
        [reflexivity|].
      assert (Hin : In i (List.filter (has_path p) (below root)))
        by (rewrite E; now left).
      apply List.filter_In in Hin as [Hin Hp].
      rewrite Forall_forall in Hall.
      exfalso. apply (Hall i); [now apply list_elem_of_In|].
      now apply String.eqb_eq.
  - cbn [find_item_by_path]. rewrite find_in_eq.
    now rewrite String.eqb_refl.
Qed.

(** ** Scrolling, selection and the mouse *)

Lemma max_visible_items_value : max_visible_items = 25.
Proof. reflexivity. Qed.

(** X17: a wheel event keeps a scroll offset that lies between 0 and the
    last useful offset, max(0, total - 25), within that range, and moves
    it by at most three rows; scrolling down never leaves it past the
    last useful offset, whatever it was before. *)
Theorem scroll_stays_in_range (total_items scroll_offset y : Z) :
  0 <= scroll_offset <= Z.max 0 (total_items - max_visible_items) ->
  0 <= handle_mouse_scroll total_items scroll_offset y
    <= Z.max 0 (total_items - max_visible_items) /\
  Z.abs (handle_mouse_scroll total_items scroll_offset y - scroll_offset)
    <= 3 /\
  (y < 0 ->
   forall any_offset,
     handle_mouse_scroll total_items any_offset y
     <= Z.max 0 (total_items - max_visible_items)).
Proof.
  unfold handle_mouse_scroll. rewrite max_visible_items_value.
  intros H. repeat split.
  - destruct (0 <? y); [lia|]. destruct (y <? 0); lia.
  - destruct (0 <? y); [lia|]. destruct (y <? 0); lia.
  - destruct (0 <? y); [lia|]. destruct (y <? 0); lia.
  - intros Hy any_offset.
    destruct (Z.ltb_spec 0 y); [lia|]. destruct (Z.ltb_spec y 0); lia.
Qed.

Lemma ensure_visible_spec (len scroll_offset item_index : Z) :
  0 <= item_index < len -> 0 <= scroll_offset ->
  0 <= ensure_visible len scroll_offset item_index /\
  ensure_visible len scroll_offset item_index <= item_index
    < ensure_visible len scroll_offset item_index + max_visible_items.
Proof.
  unfold ensure_visible. rewrite max_visible_items_value. intros Hi Ho.
  destruct (Z.ltb_spec item_index scroll_offset); [lia|].
  destruct (Z.leb_spec (scroll_offset + 25) item_index); lia.
Qed.

(** X18: for a valid row index and a non-negative scroll offset,
    [ensure_visible] yields a non-negative offset whose window of 25 rows
    contains the row; a row that is already visible leaves the offset
    unchanged. *)
Theorem ensure_visible_shows_the_row (len scroll_offset item_index : Z) :
  0 <= item_index < len -> 0 <= scroll_offset ->
  0 <= ensure_visible len scroll_offset item_index /\
  ensure_visible len scroll_offset item_index <= item_index
    < ensure_visible len scroll_offset item_index + max_visible_items /\
  (scroll_offset <= item_index < scroll_offset + max_visible_items ->
   ensure_visible len scroll_offset item_index = scroll_offset).
Proof.
  intros Hi Ho.
  destruct (ensure_visible_spec len scroll_offset item_index Hi Ho)
    as [H1 H2].
  split; [exact H1|]. split; [exact H2|].
  unfold ensure_visible. rewrite max_visible_items_value. intros Hv.
  destruct (Z.ltb_spec item_index scroll_offset); [lia|].
  destruct (Z.leb_spec (scroll_offset + 25) item_index); lia.
Qed.

(** X19: with a selection at a valid index, the up and down arrow keys
    move the selection by at most one row, keep it a valid index (up at
    the first row and down at the last row stay put), and leave the
    scroll offset such that the new selection is inside the window. *)
Theorem arrow_keys_keep_selection_visible (len scroll_offset current_idx : Z) :
  0 <= current_idx < len -> 0 <= scroll_offset ->
  (0 <= fst (key_up len scroll_offset current_idx) < len /\
   current_idx - 1 <= fst (key_up len scroll_offset current_idx)
     <= current_idx /\
   0 <= snd (key_up len scroll_offset current_idx)
     <= fst (key_up len scroll_offset current_idx) /\
   fst (key_up len scroll_offset current_idx)
   < snd (key_up len scroll_offset current_idx) + max_visible_items) /\
  (0 <= fst (key_down len scroll_offset current_idx) < len /\
   current_idx <= fst (key_down len scroll_offset current_idx)
     <= current_idx + 1 /\
   0 <= snd (key_down len scroll_offset current_idx)
     <= fst (key_down len scroll_offset current_idx) /\
   fst (key_down len scroll_offset current_idx)
   < snd (key_down len scroll_offset current_idx) + max_visible_items) /\
  fst (key_up len scroll_offset 0) = 0 /\
  fst (key_down len scroll_offset (len - 1)) = len - 1.
Proof.
  intros Hi Ho. unfold key_up, key_down. cbn [fst snd].
  assert (Hup : 0 <= Z.max 0 (current_idx - 1) < len) by lia.
  assert (Hdown : 0 <= Z.min (len - 1) (current_idx + 1) < len) by lia.
  destruct (ensure_visible_spec len scroll_offset _ Hup Ho) as [U1 U2].
  destruct (ensure_visible_spec len scroll_offset _ Hdown Ho) as [D1 D2].
  repeat split; lia.
Qed.

(** X20: a left click inside the rectangle in which [draw_file_list]
    drew a row selects exactly that row, for every row of the window and
    every horizontal position of the list area, except on the topmost
    pixel line of the list (y = 50), which the hit test rejects although
    the first row is drawn from there. *)
Theorem click_selects_the_drawn_row (len scroll_offset i mouse_x mouse_y : Z) :
  0 <= scroll_offset ->
  scroll_offset <= i < len ->
  i < scroll_offset + max_visible_items ->
  SIDEBAR_WIDTH < mouse_x < SCREEN_WIDTH - 20 ->
  row_top scroll_offset i <= mouse_y < row_top scroll_offset i + ITEM_HEIGHT ->
  (LIST_TOP < mouse_y ->
   clicked_index len scroll_offset mouse_x mouse_y = Some i) /\
  clicked_index len scroll_offset mouse_x LIST_TOP = None /\
  row_top scroll_offset scroll_offset = LIST_TOP.
Proof.
  unfold clicked_index, row_top, LIST_TOP, ITEM_HEIGHT, SIDEBAR_WIDTH,
    SCREEN_WIDTH, SCREEN_HEIGHT. rewrite max_visible_items_value.
  intros Ho Hi Hw Hx Hy. split; [|split].
  - intros Htop.
    assert (Hdiv : (mouse_y - 50) / 30 = i - scroll_offset).
    { symmetry.
      apply (Z.div_unique_pos _ 30 _ (mouse_y - 50 - 30 * (i - scroll_offset)));
        lia. }
    rewrite Hdiv.
    replace (300 <? mouse_x) with true by (symmetry; apply Z.ltb_lt; lia).
    replace (mouse_x <? 1200 - 20) with true
      by (symmetry; apply Z.ltb_lt; lia).
    replace (50 <? mouse_y) with true by (symmetry; apply Z.ltb_lt; lia).
    replace (mouse_y <? 800) with true by (symmetry; apply Z.ltb_lt; lia).
    cbn [andb].
    replace (scroll_offset + (i - scroll_offset)) with i by lia.
    replace (i <? len) with true by (symmetry; apply Z.ltb_lt; lia).
    reflexivity.
  - rewrite Z.ltb_irrefl. now rewrite andb_false_r.
  - lia.
Qed.

(** X21: for a non-empty list and a scroll offset between 0 and the last
    useful offset, the scrollbar thumb is between 30 and 600 pixels high
    and lies entirely inside the 600 pixel track. *)
Theorem scrollbar_thumb_inside_track (total_items scroll_offset : Z) :
  0 < total_items ->
  0 <= scroll_offset <= Z.max 0 (total_items - max_visible_items) ->
  (30 <= snd (scrollbar_thumb total_items scroll_offset))%Q /\
  (snd (scrollbar_thumb total_items scroll_offset)
   <= Zq FILE_LIST_HEIGHT)%Q /\
  (0 <= fst (scrollbar_thumb total_items scroll_offset))%Q /\
  (fst (scrollbar_thumb total_items scroll_offset)
   + snd (scrollbar_thumb total_items scroll_offset)
   <= Zq FILE_LIST_HEIGHT)%Q.
Proof.
  intros Htot Hoff. unfold scrollbar_thumb. cbn [fst snd].
  rewrite max_visible_items_value in *.
  set (ratio := py_min 1 (Zq 25 / Zq total_items)).
  set (h := py_max 30 (Zq FILE_LIST_HEIGHT * ratio)).
  assert (Hratio : (ratio <= 1)%Q) by apply py_min_spec.
  assert (Hh : (30 <= h)%Q /\ (h <= 600)%Q).
  { unfold h. change (Zq FILE_LIST_HEIGHT) with 600%Q.
    destruct (py_max_spec 30 (600 * ratio)) as (H1 & H2 & [H3 | H3]);
      split; auto; rewrite H3; lra. }
  destruct Hh as [Hh1 Hh2].
  change (Zq FILE_LIST_HEIGHT) with 600%Q in *.
  split; [exact Hh1|]. split; [exact Hh2|].
  destruct (Z.ltb_spec 0 (Z.max 0 (total_items - 25))) as [Hms | Hms];
    [|split; lra].
  set (ms := Z.max 0 (total_items - 25)) in *.
  assert (Hmsq : (0 < Zq ms)%Q).
  { unfold Zq. change 0%Q with (inject_Z 0). rewrite <- Zlt_Qlt. lia. }
  assert (Hr0 : (0 <= Zq scroll_offset / Zq ms)%Q).
  { apply Qle_shift_div_l; [exact Hmsq|]. rewrite Qmult_0_l.
    unfold Zq. change 0%Q with (inject_Z 0). rewrite <- Zle_Qle. lia. }
  assert (Hr1 : (Zq scroll_offset / Zq ms <= 1)%Q).
  { apply Qle_shift_div_r; [exact Hmsq|]. rewrite Qmult_1_l.
    unfold Zq. rewrite <- Zle_Qle. lia. }
  set (r := (Zq scroll_offset / Zq ms)%Q) in *.
  split; nra.
Qed.

(** ** Worked instances *)

Lemma scroll_stays_in_range_witness :
  0 <= 12 <= Z.max 0 (40 - max_visible_items) /\
  0 <= handle_mouse_scroll 40 12 (-1)
    <= Z.max 0 (40 - max_visible_items).
Proof.
  assert (H : 0 <= 12 <= Z.max 0 (40 - max_visible_items))
    by (vm_compute; split; discriminate).
  split; [exact H|]. apply (scroll_stays_in_range 40 12 (-1) H).
Defined.

Lemma ensure_visible_shows_the_row_witness :
  0 <= 39 < 40 /\ 0 <= 0 /\
  ensure_visible 40 0 39 <= 39 < ensure_visible 40 0 39 + max_visible_items.
Proof.
  assert (H1 : 0 <= 39 < 40) by lia.
  assert (H2 : 0 <= 0) by lia.
  split; [exact H1|]. split; [exact H2|].
  apply (ensure_visible_shows_the_row 40 0 39 H1 H2).
Defined.

Lemma arrow_keys_keep_selection_visible_witness :
  0 <= 24 < 40 /\ 0 <= 0 /\
  fst (key_down 40 0 24) < snd (key_down 40 0 24) + max_visible_items.
Proof.
  assert (H1 : 0 <= 24 < 40) by lia.
  assert (H2 : 0 <= 0) by lia.
  split; [exact H1|]. split; [exact H2|].
  apply (arrow_keys_keep_selection_visible 40 0 24 H1 H2).
Defined.

Lemma click_selects_the_drawn_row_witness :
  0 <= 3 /\ 3 <= 5 < 40 /\ 5 < 3 + max_visible_items /\
  SIDEBAR_WIDTH < 400 < SCREEN_WIDTH - 20 /\
  row_top 3 5 <= 125 < row_top 3 5 + ITEM_HEIGHT /\
  clicked_index 40 3 400 125 = Some 5.
Proof.
  assert (H1 : 0 <= 3) by lia.
  assert (H2 : 3 <= 5 < 40) by lia.
  assert (H3 : 5 < 3 + max_visible_items) by (vm_compute; reflexivity).
  assert (H4 : SIDEBAR_WIDTH < 400 < SCREEN_WIDTH - 20)
    by (vm_compute; split; reflexivity).
  assert (H5 : row_top 3 5 <= 125 < row_top 3 5 + ITEM_HEIGHT)
    by (vm_compute; split; [discriminate | reflexivity]).
  repeat (split; [assumption|]).
  apply (click_selects_the_drawn_row 40 3 5 400 125 H1 H2 H3 H4 H5).
  vm_compute. reflexivity.
Defined.

Lemma scrollbar_thumb_inside_track_witness :
  0 < 100 /\ 0 <= 30 <= Z.max 0 (100 - max_visible_items) /\
  (fst (scrollbar_thumb 100 30) + snd (scrollbar_thumb 100 30)
   <= Zq FILE_LIST_HEIGHT)%Q.
Proof.
  assert (H1 : 0 < 100) by lia.
  assert (H2 : 0 <= 30 <= Z.max 0 (100 - max_visible_items))
    by (vm_compute; split; discriminate).
  split; [exact H1|]. split; [exact H2|].
  apply (scrollbar_thumb_inside_track 100 30 H1 H2).
Defined.
End Browser.

(** ** Worked instances for the controller *)

(** Twenty samples exactly on the 250 ms target. *)
Definition twenty_on_target : Controller :=
  set_stats (init "192.168.68.61" (5 # 100) 100 (250 # 1000))
    (mkStats 20 (replicate 20 (250 # 1000)%Q) [] 0 0).

(** The operator types 'q' while the dispatcher is at its loop head. *)
Definition quit_when_idle : System :=
  run default_boot [Dispatch true; Command "q"].

Definition after_quit : list Action :=
  [Osc "/dirt/play" kick; Dispatch true; Tick 1; Dispatch true;
   Command "++"; Osc "/dirt/play" kick; Dispatch true].

Definition busy_session : list Action :=
  [Dispatch true; Command "++"; Command "++"; Osc "/dirt/play" kick;
   Command "c"; Command "--"].

Lemma delay_within_bounds_in_every_run_witness :
  (250 # 1000 <= 115 # 100)%Q /\
  (minimum_delay
   <= intentional_delay (ctl (run default_boot busy_session)))%Q /\
  (intentional_delay (ctl (run default_boot busy_session))
   <= maximum_delay)%Q.
Proof.
  assert (H : (250 # 1000 <= 115 # 100)%Q) by (vm_compute; discriminate).
  destruct (delay_within_bounds_in_every_run "192.168.68.61" (5 # 100) 100
              (250 # 1000) 0 busy_session) as [Hlo Hhi].
  split; [exact H|]. unfold default_boot.
  split; [exact Hlo | exact (Hhi H)].
Defined.

Lemma update_delay_compose_witness :
  (minimum_delay
   <= intentional_delay (ctl default_boot) + 10 / 1000)%Q /\
  (intentional_delay (ctl default_boot) + 10 / 1000 <= maximum_delay)%Q /\
  (intentional_delay
     (fst (update_delay (fst (update_delay (ctl default_boot) 10)) 50))
   == intentional_delay (fst (update_delay (ctl default_boot) (10 + 50))))%Q.
Proof.
  assert (H1 : (minimum_delay
                <= intentional_delay (ctl default_boot) + 10 / 1000)%Q)
    by (vm_compute; discriminate).
  assert (H2 : (intentional_delay (ctl default_boot) + 10 / 1000
                <= maximum_delay)%Q)
    by (vm_compute; discriminate).
  split; [exact H1|]. split; [exact H2|].
  apply (update_delay_compose (ctl default_boot) 10 50 H1 H2).
Defined.

Lemma calibrate_on_target_keeps_delay_witness :
  (min_calibration_samples
   <= length (measured_latencies (stats twenty_on_target)))%nat /\
  (intentional_delay (fst (calibrate_automatically twenty_on_target))
   == intentional_delay twenty_on_target)%Q.
Proof.
  assert (H : (min_calibration_samples
               <= length (measured_latencies (stats twenty_on_target)))%nat)
    by (vm_compute; lia).
  split; [exact H|].
  apply (calibrate_on_target_keeps_delay twenty_on_target H).
  - vm_compute. reflexivity.
  - vm_compute. discriminate.
  - vm_compute. discriminate.
Defined.

Lemma nothing_dispatched_after_stop_witness :
  running (ctl quit_when_idle) = false /\
  (phase quit_when_idle = Idle \/ phase quit_when_idle = Stopped) /\
  dispatched (run quit_when_idle after_quit) = dispatched quit_when_idle /\
  total (stats (ctl (run quit_when_idle after_quit)))
  = total (stats (ctl quit_when_idle)) + 2.
Proof.
  assert (H1 : running (ctl quit_when_idle) = false) by reflexivity.
  assert (H2 : phase quit_when_idle = Idle \/ phase quit_when_idle = Stopped)
    by (left; reflexivity).
  destruct (nothing_dispatched_after_stop quit_when_idle after_quit H1 H2)
    as (_ & Hd & _ & _ & _ & Ht).
  split; [exact H1|]. split; [exact H2|]. split; [exact Hd | exact Ht].
Defined.

Lemma pulses_never_overlap_witness :
  bulb_always_answers one_kick_dispatched = true /\
  no_double_on (bulb_log (run default_boot one_kick_dispatched)) = true.
Proof.
  assert (H : bulb_always_answers one_kick_dispatched = true)
    by reflexivity.
  destruct (pulses_never_overlap "192.168.68.61" (5 # 100) 100 (250 # 1000) 0
              one_kick_dispatched H) as [Hlog _].
  split; [exact H|]. unfold default_boot. exact Hlog.
Defined.
